(** * portfolio_optimization: a shallow embedding and its properties

    The Python sources embedded here are
      - [portfolio_optimization/utils/tools.py]
        ([dominate], [dominate_slow], [portfolio_returns], [rand_weights],
        [walk_forward]),
      - [portfolio_optimization/optimization/cvar.py] ([mean_cvar]),
      - [portfolio_optimization/assets.py] ([Assets]).

    Numbers.  numpy's float64 values are idealised as exact rationals [Q]:
    every finite float is a rational, and comparisons of finite floats are
    comparisons of rationals.  Rounding is outside of the model, and so are
    the non-finite values: an operation that leaves the finite numbers
    (a division by zero, the NaN row of [pct_change]) is written out as
    [None].  Dates are day ordinals in [Z] ([datetime.date.toordinal]), a
    [timedelta(days=d)] is the integer [d]; the first and the last date that
    [datetime.date] can hold are not modelled.

    Libraries.  [numpy], [pandas] and [cvxpy] are not part of the sources:
    the operations the code calls are given their documented meaning on
    lists, and [np.sqrt], [10 ** x] and the convex solver are parameters. *)

From Stdlib Require Import String ZArith QArith Qminmax List Bool Arith Lia Lqa.
Import ListNotations.

Local Open Scope Q_scope.

(* ================================================================== *)
(** * Part I: definitions                                              *)
(* ================================================================== *)

(** ** Comparisons of numbers, as booleans *)

(** Python's [x <= y]. *)
Definition Qleb (x y : Q) : bool := Qle_bool x y.

(** Python's [x < y]. *)
Definition Qltb (x y : Q) : bool := negb (Qle_bool y x).

(** Python's [x > y]. *)
Definition Qgtb (x y : Q) : bool := Qltb y x.

(** Python's [x >= y]. *)
Definition Qgeb (x y : Q) : bool := Qleb y x.

(** ** utils/tools.py: dominance *)

(** The [for] loop of [dominate] over [zip(fitness_1, fitness_2)], with the
    local variable [not_equal] as an accumulator; the early [return False]
    ends the iteration. *)
Fixpoint dominate_loop (not_equal : bool) (pairs : list (Q * Q)) : bool :=
  match pairs with
  | [] => not_equal
  | (self_value, other_value) :: rest =>
      if Qgtb self_value other_value then dominate_loop true rest
      else if Qltb self_value other_value then false
      else dominate_loop not_equal rest
  end.

(** [dominate(fitness_1, fitness_2)]; [zip] stops at the shorter vector. *)
Definition dominate (fitness_1 fitness_2 : list Q) : bool :=
  dominate_loop false (combine fitness_1 fitness_2).

(** numpy's broadcasting of two one-dimensional arrays in an elementwise
    operation: equal shapes pair up, a one-element array is stretched, any
    other pair of shapes raises [ValueError] ([None]). *)
Definition broadcast (a b : list Q) : option (list (Q * Q)) :=
  if Nat.eqb (length a) (length b) then Some (combine a b)
  else if Nat.eqb (length b) 1 then Some (map (fun x => (x, hd 0 b)) a)
  else if Nat.eqb (length a) 1 then Some (map (fun y => (hd 0 a, y)) b)
  else None.

(** [np.all] and [np.any] over a boolean array. *)
Definition np_all (l : list bool) : bool := forallb (fun b => b) l.
Definition np_any (l : list bool) : bool := existsb (fun b => b) l.

(** [dominate_slow]:
    [np.all(fitness_1 >= fitness_2) and np.any(fitness_1 > fitness_2)]. *)
Definition dominate_slow (fitness_1 fitness_2 : list Q) : option bool :=
  match broadcast fitness_1 fitness_2 with
  | None => None
  | Some pairs =>
      Some (np_all (map (fun p => Qgeb (fst p) (snd p)) pairs)
            && np_any (map (fun p => Qgtb (fst p) (snd p)) pairs))
  end.

(** The dominance relation in the words of the specification: every
    objective of [a] is at least the corresponding objective of [b], and at
    least one is strictly greater. *)
Definition dominates_spec (a b : list Q) : Prop :=
  (forall i, (i < length a)%nat -> nth i b 0 <= nth i a 0) /\
  (exists i, (i < length a)%nat /\ nth i b 0 < nth i a 0).

(** ** utils/tools.py: walk-forward periods *)

(** A [datetime.date] as its day ordinal; a period is a pair of dates. *)
Definition date : Type := Z.
Definition period : Type := (date * date)%type.

(** What one [yield] of [walk_forward] hands out: the train period and the
    test period. *)
Definition train_test : Type := (period * period)%type.

Definition train_start_of (s : train_test) : date := fst (fst s).
Definition train_end_of (s : train_test) : date := snd (fst s).
Definition test_start_of (s : train_test) : date := fst (snd s).
Definition test_end_of (s : train_test) : date := snd (snd s).

(** Default value for positions outside of a run. *)
Definition no_split : train_test := ((0, 0), (0, 0))%Z.

(** One pass through the body of the [while True] loop of [walk_forward],
    from the current value of [train_start]: [None] is the [return],
    [Some (s, train_start')] is the [yield] of [s] followed by the update of
    [train_start]. *)
Definition walk_forward_step (end_date : date)
    (train_duration test_duration : Z) (full_period : bool)
    (train_start : date) : option (train_test * date) :=
  let train_end := (train_start + train_duration)%Z in
  let test_start := train_end in
  let test_end := (test_start + test_duration)%Z in
  if (test_end >? end_date)%Z then
    if full_period || (test_start >=? end_date)%Z then None
    else Some (((train_start, train_end), (test_start, end_date)),
               (train_start + test_duration)%Z)
  else Some (((train_start, train_end), (test_start, test_end)),
             (train_start + test_duration)%Z).

(** The generator run from a value of [train_start]: the list of the splits
    it yields before it returns.  The loop is [while True], so the run is
    bounded by [fuel]: [None] means the generator had not returned after
    [fuel] passes. *)
Fixpoint walk_forward_from (fuel : nat) (end_date : date)
    (train_duration test_duration : Z) (full_period : bool)
    (train_start : date) : option (list train_test) :=
  match fuel with
  | O => None
  | S fuel' =>
      match walk_forward_step end_date train_duration test_duration
                              full_period train_start with
      | None => Some []
      | Some (s, train_start') =>
          match walk_forward_from fuel' end_date train_duration
                                  test_duration full_period train_start' with
          | None => None
          | Some rest => Some (s :: rest)
          end
      end
  end.

(** [walk_forward(start_date, end_date, train_duration, test_duration,
    full_period)], consumed to its end. *)
Definition walk_forward (fuel : nat) (start_date end_date : date)
    (train_duration test_duration : Z) (full_period : bool)
    : option (list train_test) :=
  walk_forward_from fuel end_date train_duration test_duration full_period
                    start_date.

(** Passes that are enough for the generator to return when
    [test_duration >= 1]: one per full test period that fits before
    [end_date], one for a truncated last period, one for the [return]. *)
Definition walk_forward_fuel (start_date end_date : date)
    (train_duration test_duration : Z) : nat :=
  Z.to_nat (end_date - (start_date + train_duration + test_duration) + 1) + 2.

(** ** Exceptions, tables and arrays *)

(** The exceptions the embedded code raises. *)
Inductive exn : Type :=
| ValueError (msg : string)
| TypeError (msg : string)
| IndexError
| ZeroDivisionError
| OptimizationFailed.

(** A float cell of a price table or of an array computed from it: [None]
    is NaN (a missing price) or another non-finite value. *)
Abbreviation cell := (option Q) (only parsing).

(** A two-dimensional [numpy] array with its [shape]. *)
Record ndarray (A : Type) : Type := mk_ndarray {
  shape : nat * nat;
  data : list (list A)
}.
Arguments mk_ndarray {A} _ _.
Arguments shape {A} _.
Arguments data {A} _.

(** The array has the rows and columns its shape announces. *)
Definition ndarray_wf {A : Type} (a : ndarray A) : Prop :=
  length (data a) = fst (shape a) /\
  Forall (fun row => length row = snd (shape a)) (data a).

(** Column [j] of a list of rows. *)
Definition column {A : Type} (d : A) (j : nat) (rows : list (list A)) : list A :=
  map (fun row => nth j row d) rows.

(** [a.T]. *)
Definition transpose {A : Type} (d : A) (a : ndarray A) : ndarray A :=
  mk_ndarray (snd (shape a), fst (shape a))
             (map (fun j => column d j (data a)) (seq 0 (snd (shape a)))).

(** A [pandas.DataFrame] of prices: one row per date of [index], one column
    per asset name of [columns]. *)
Record DataFrame : Type := mk_DataFrame {
  index_is_datetime : bool;
  index : list date;
  columns : list string;
  values : list (list cell)
}.

(** [df.shape] and [df.empty]. *)
Definition df_shape (df : DataFrame) : nat * nat :=
  (length (index df), length (columns df)).

Definition df_empty (df : DataFrame) : bool :=
  Nat.eqb (length (index df)) 0 || Nat.eqb (length (columns df)) 0.

(** [df.to_numpy()]. *)
Definition to_numpy (df : DataFrame) : ndarray cell :=
  mk_ndarray (df_shape df) (values df).

Definition isna (c : cell) : bool :=
  match c with None => true | Some _ => false end.

Definition count_nan (l : list cell) : nat := length (filter isna l).

(** [df.isna().sum(axis=0)] (one count per column) and
    [df.isna().sum(axis=1)] (one count per row). *)
Definition isna_sum_axis0 (df : DataFrame) : list nat :=
  map (fun j => count_nan (column None j (values df)))
      (seq 0 (length (columns df))).

Definition isna_sum_axis1 (df : DataFrame) : list nat :=
  map count_nan (values df).

(** The entries of [l] whose mark in [keep] is [true]. *)
Fixpoint select {A : Type} (keep : list bool) (l : list A) : list A :=
  match keep, l with
  | k :: keep', x :: l' => if k then x :: select keep' l' else select keep' l'
  | _, _ => []
  end.

(** [count_nan > size * threshold], an integer against a float. *)
Definition above_threshold (size : nat) (threshold : Q) (count : nat) : bool :=
  Qgtb (inject_Z (Z.of_nat count)) (inject_Z (Z.of_nat size) * threshold).

(** [df.drop(to_drop, axis=1)] and [df.drop(to_drop, axis=0)], for labels
    that are pairwise different; [keep] marks the labels that stay. *)
Definition drop_columns (keep : list bool) (df : DataFrame) : DataFrame :=
  mk_DataFrame (index_is_datetime df) (index df) (select keep (columns df))
               (map (select keep) (values df)).

Definition drop_rows (keep : list bool) (df : DataFrame) : DataFrame :=
  mk_DataFrame (index_is_datetime df) (select keep (index df)) (columns df)
               (select keep (values df)).

(** Forward fill down the rows: a missing cell takes the last value seen
    above it in its column; [prev] is the filled row above. *)
Definition fill_cell (prev cur : cell) : cell :=
  match cur with Some _ => cur | None => prev end.

Fixpoint ffill_rows (prev : list cell) (rows : list (list cell))
    : list (list cell) :=
  match rows with
  | [] => []
  | row :: rest =>
      let row' := map (fun pc => fill_cell (fst pc) (snd pc))
                      (combine prev row) in
      row' :: ffill_rows row' rest
  end.

(** [df.fillna(method='ffill')] and [df.fillna(method='bfill')]. *)
Definition ffill (df : DataFrame) : DataFrame :=
  mk_DataFrame (index_is_datetime df) (index df) (columns df)
    (ffill_rows (repeat None (length (columns df))) (values df)).

Definition bfill (df : DataFrame) : DataFrame :=
  mk_DataFrame (index_is_datetime df) (index df) (columns df)
    (rev (ffill_rows (repeat None (length (columns df))) (rev (values df)))).

(** ** assets.py *)

(** [Assets._prices_check]: [None] when nothing is raised. *)
Definition _prices_check (prices : DataFrame) : option exn :=
  if df_empty prices then Some (ValueError "prices cannot be empty")
  else if negb (index_is_datetime prices)
  then Some (TypeError "prices index has to be of type pandas.DatetimeIndex")
  else None.

(** The message of the [TypeError] of [0 < None]. *)
Definition none_comparison : string :=
  "'<' not supported between instances of 'int' and 'NoneType'".

(** The body of [Assets._preprocessing] after its two guards: the removal
    of the assets and of the dates with too many missing prices, then the
    two fills. *)
Definition clean_prices (asset_missing_threshold dates_missing_threshold : Q)
    (prices : DataFrame) : DataFrame :=
  let '(n, m) := df_shape prices in
  let keep_assets :=
    map (fun c => negb (above_threshold n dates_missing_threshold c))
        (isna_sum_axis0 prices) in
  let prices := drop_columns keep_assets prices in
  let keep_dates :=
    map (fun c => negb (above_threshold m asset_missing_threshold c))
        (isna_sum_axis1 prices) in
  let prices := drop_rows keep_dates prices in
  bfill (ffill prices).

(** [Assets._preprocessing]: the result is the exception raised or the new
    value of [self.prices].  A threshold is an [Optional[float]]: [None] is
    Python's [None], which the comparison [0 < threshold] refuses with a
    [TypeError]; on a number the guard is [not 0 < threshold < 1]. *)
Definition _preprocessing
    (asset_missing_threshold dates_missing_threshold : option Q)
    (prices : DataFrame) : exn + DataFrame :=
  match asset_missing_threshold with
  | None => inl (TypeError none_comparison)
  | Some a =>
      if negb (Qltb 0 a && Qltb a 1)
      then inl (ValueError
                  "asset_missing_threshold has to be between 0 and 1")
      else
        match dates_missing_threshold with
        | None => inl (TypeError none_comparison)
        | Some d =>
            if negb (Qltb 0 d && Qltb d 1)
            then inl (ValueError
                        "dates_missing_threshold has to be between 0 and 1")
            else inr (clean_prices a d prices)
        end
  end.

(** [Assets.__init__] from the point where [self.prices] holds the selected
    dates and assets: the sanity check, then the preprocessing when it is
    asked for.  The result is the exception raised or [self.prices]. *)
Definition Assets_init (prices : DataFrame) (preprocessing : bool)
    (asset_missing_threshold dates_missing_threshold : option Q)
    : exn + DataFrame :=
  match _prices_check prices with
  | Some e => inl e
  | None =>
      if preprocessing
      then _preprocessing asset_missing_threshold dates_missing_threshold
                          prices
      else inr prices
  end.

(** A threshold lies strictly inside the open interval (0, 1). *)
Definition inside_unit_interval (threshold : option Q) : Prop :=
  exists x, threshold = Some x /\ 0 < x /\ x < 1.

(** Division and subtraction on cells; a division by zero leaves the finite
    numbers. *)
Definition cell_div (a b : cell) : cell :=
  match a, b with
  | Some x, Some y => if Qeq_bool y 0 then None else Some (x / y)
  | _, _ => None
  end.

Definition cell_sub (a : cell) (y : Q) : cell :=
  match a with Some x => Some (x - y) | None => None end.

(** [df.shift(1)]: every row moves one date down, the first row is NaN. *)
Definition shift1 (df : DataFrame) : DataFrame :=
  mk_DataFrame (index_is_datetime df) (index df) (columns df)
    (match values df with
     | [] => []
     | _ :: _ => repeat None (length (columns df)) :: removelast (values df)
     end).

(** [df.pct_change()], with the defaults [periods=1] and
    [fill_method='pad']: [data = df.fillna(method='pad')], then
    [data / data.shift(1) - 1]. *)
Definition pct_change (df : DataFrame) : DataFrame :=
  let data := ffill df in
  mk_DataFrame (index_is_datetime df) (index df) (columns df)
    (map (fun rows =>
            map (fun ab => cell_sub (cell_div (fst ab) (snd ab)) 1)
                (combine (fst rows) (snd rows)))
         (combine (values data) (values (shift1 data)))).

(** [df[1:]]. *)
Definition df_tail (df : DataFrame) : DataFrame :=
  mk_DataFrame (index_is_datetime df) (tl (index df)) (columns df)
               (tl (values df)).

(** The property [Assets.returns], computed from [self.prices] (the value
    is cached in [self._returns] at the first access):
    [self.prices.pct_change()[1:].to_numpy().T]. *)
Definition returns (prices : DataFrame) : ndarray cell :=
  transpose None (to_numpy (df_tail (pct_change prices))).

(** The properties [Assets.asset_nb] and [Assets.date_nb]. *)
Definition asset_nb (prices : DataFrame) : nat := fst (shape (returns prices)).
Definition date_nb (prices : DataFrame) : nat := snd (shape (returns prices)).

(** A price table without missing values, from its numbers. *)
Definition price_table (dates : list date) (names : list string)
    (P : list (list Q)) : DataFrame :=
  mk_DataFrame true dates names (map (map (@Some Q)) P).

(** ** utils/tools.py: portfolio returns *)

(** [sum] of a vector. *)
Fixpoint Qsum (l : list Q) : Q :=
  match l with
  | [] => 0
  | x :: l' => x + Qsum l'
  end.

(** The dot product of two vectors: the sum of the products of their
    matching components. *)
Definition dot (a b : list Q) : Q :=
  Qsum (map (fun p => fst p * snd p) (combine a b)).

(** [row * c], a vector times a scalar, and [a + b], componentwise. *)
Definition vscale (row : list Q) (c : Q) : list Q := map (fun x => x * c) row.

Definition vadd (a b : list Q) : list Q :=
  map (fun p => fst p + snd p) (combine a b).

(** One pass of the loop of [portfolio_returns]:
    [returns += asset_returns[i] * weights[i]]; an index out of range raises
    [IndexError]. *)
Definition portfolio_returns_step (asset_returns : ndarray Q)
    (weights : list Q) (acc : exn + list Q) (i : nat) : exn + list Q :=
  match acc with
  | inl e => inl e
  | inr returns =>
      match nth_error (data asset_returns) i, nth_error weights i with
      | Some row, Some wi => inr (vadd returns (vscale row wi))
      | _, _ => inl IndexError
      end
  end.

(** [portfolio_returns(asset_returns, weights)]: the loop over
    [range(n)], from [np.zeros(m)]. *)
Definition portfolio_returns (asset_returns : ndarray Q) (weights : list Q)
    : exn + list Q :=
  let '(n, m) := shape asset_returns in
  fold_left (portfolio_returns_step asset_returns weights) (seq 0 n)
            (inr (repeat 0 m)).

(** The vector [w.R] of the specification: its entry [j] is the sum over
    the assets [i] of [w_i * R[i][j]]. *)
Definition weighted_returns (w : list Q) (R : ndarray Q) : list Q :=
  map (fun j => dot w (column 0 j (data R))) (seq 0 (snd (shape R))).

(** ** Sample statistics *)

(** Equality of two cells as numbers. *)
Definition cell_eq (a b : cell) : Prop :=
  match a, b with
  | Some x, Some y => x == y
  | None, None => True
  | _, _ => False
  end.

Definition Qlen (l : list Q) : Q := inject_Z (Z.of_nat (length l)).

(** [x.mean()]: NaN on an empty vector. *)
Definition np_mean (x : list Q) : cell :=
  match x with
  | [] => None
  | _ :: _ => Some (Qsum x / Qlen x)
  end.

(** [x.var(ddof=ddof)]: the squared deviations from the mean, summed and
    divided by [len(x) - ddof]; not a finite number when that divisor is
    not positive. *)
Definition np_var (ddof : nat) (x : list Q) : cell :=
  match np_mean x with
  | None => None
  | Some mu =>
      if (length x <=? ddof)%nat then None
      else Some (Qsum (map (fun r => (r - mu) * (r - mu)) x)
                 / inject_Z (Z.of_nat (length x - ddof)))
  end.

(** [x.std(ddof=ddof)], with [np.sqrt] as [sqrt]. *)
Definition np_std (sqrt : Q -> Q) (ddof : nat) (x : list Q) : cell :=
  option_map sqrt (np_var ddof x).

(** The downside deviation about the mean, as the test writes it:
    [np.sqrt(np.sum(np.minimum(0, x - x.mean()) ** 2) / (len(x) - 1))]. *)
Definition downside_var (x : list Q) : cell :=
  match np_mean x with
  | None => None
  | Some mu =>
      if (length x <=? 1)%nat then None
      else Some (Qsum (map (fun r => Qmin 0 (r - mu) * Qmin 0 (r - mu)) x)
                 / inject_Z (Z.of_nat (length x - 1)))
  end.

Definition downside_std (sqrt : Q -> Q) (x : list Q) : cell :=
  option_map sqrt (downside_var x).

(** ** Portfolio and MultiPeriodPortfolio *)

(** A metric of a return series that may have failed to be computed. *)
Definition on_returns {A : Type} (f : list Q -> A) (r : exn + list Q)
    : exn + A :=
  match r with
  | inl e => inl e
  | inr x => inr (f x)
  end.

(** Modelled from the spec: the class [Portfolio] of [portfolio.py], which
    is not among the sources.  A portfolio wraps a weight vector and the
    returns of the assets it was computed against; its return series is
    [portfolio_returns] of the two (as [test_multi_period_portfolio] computes
    it), and "mean, std" are the "sample mean and sample standard deviation
    (Bessel-corrected, divisor n-1) of the portfolio's period returns". *)
Record Portfolio : Type := mk_Portfolio {
  weights : list Q;
  assets_returns : ndarray Q
}.

(** Modelled from the spec: the return series of a [Portfolio]
    ([portfolio.py] is not among the sources), [portfolio_returns] of the
    returns of its assets and of its weights. *)
Definition Portfolio_returns (p : Portfolio) : exn + list Q :=
  portfolio_returns (assets_returns p) (weights p).

(** Modelled from the spec: [Portfolio.mean] ([portfolio.py] is not among
    the sources), the sample mean of the return series. *)
Definition Portfolio_mean (p : Portfolio) : exn + cell :=
  on_returns np_mean (Portfolio_returns p).

(** Modelled from the spec: [Portfolio.std] ([portfolio.py] is not among
    the sources), the sample standard deviation with divisor [n - 1]. *)
Definition Portfolio_std (sqrt : Q -> Q) (p : Portfolio) : exn + cell :=
  on_returns (np_std sqrt 1) (Portfolio_returns p).

(** Modelled from the spec: the class [MultiPeriodPortfolio] of
    [portfolio.py], which is not among the sources: "an ordered sequence of
    Portfolios"; "its return series is the concatenation, in period order,
    of each sub-portfolio's per-date returns; all aggregate metrics are
    computed over this concatenated series".  [add] appends a portfolio, as
    the test uses it. *)
Record MultiPeriodPortfolio : Type := mk_MultiPeriodPortfolio {
  portfolios : list Portfolio
}.

(** Modelled from the spec: [MultiPeriodPortfolio()] and
    [MultiPeriodPortfolio.add] ([portfolio.py] is not among the sources). *)
Definition MultiPeriodPortfolio_new : MultiPeriodPortfolio :=
  mk_MultiPeriodPortfolio [].

Definition add (mpp : MultiPeriodPortfolio) (p : Portfolio)
    : MultiPeriodPortfolio :=
  mk_MultiPeriodPortfolio (portfolios mpp ++ [p]).

(** Modelled from the spec: the return series of a [MultiPeriodPortfolio]
    ([portfolio.py] is not among the sources), [np.concatenate] of the return
    series of its portfolios, in order. *)
Fixpoint concatenate_returns (ps : list Portfolio) : exn + list Q :=
  match ps with
  | [] => inr []
  | p :: rest =>
      match Portfolio_returns p with
      | inl e => inl e
      | inr r =>
          match concatenate_returns rest with
          | inl e => inl e
          | inr rs => inr (r ++ rs)
          end
      end
  end.

Definition MultiPeriodPortfolio_returns (mpp : MultiPeriodPortfolio)
    : exn + list Q :=
  concatenate_returns (portfolios mpp).

(** Modelled from the spec: the mean, std and downside std of a
    [MultiPeriodPortfolio] ([portfolio.py] is not among the sources), those
    of its return series. *)
Definition MultiPeriodPortfolio_mean (mpp : MultiPeriodPortfolio)
    : exn + cell :=
  on_returns np_mean (MultiPeriodPortfolio_returns mpp).

Definition MultiPeriodPortfolio_std (sqrt : Q -> Q)
    (mpp : MultiPeriodPortfolio) : exn + cell :=
  on_returns (np_std sqrt 1) (MultiPeriodPortfolio_returns mpp).

Definition MultiPeriodPortfolio_downside_std (sqrt : Q -> Q)
    (mpp : MultiPeriodPortfolio) : exn + cell :=
  on_returns (downside_std sqrt) (MultiPeriodPortfolio_returns mpp).

(** ** utils/tools.py: random weights *)

(** Python's built-in [sum] over a vector: a left fold from [0]. *)
Definition py_sum (k : list Q) : Q := fold_left Qplus k 0.

(** [k[zeros_idx] = 0], for indices within the vector: the entries whose
    position is listed become zero. *)
Definition zero_at (zeros_idx : list nat) (k : list Q) : list Q :=
  map (fun i => if existsb (Nat.eqb i) zeros_idx then 0 else nth i k 0)
      (seq 0 (length k)).

(** A value [np.random.rand(n)] can return: [n] floats of the half-open
    interval [0, 1). *)
Definition rand_draw (n : nat) (k : list Q) : Prop :=
  length k = n /\ Forall (fun x => 0 <= x /\ x < 1) k.

(** A value [np.random.choice(n, zeros, replace=False)] can return:
    [zeros] pairwise different indices below [n]. *)
Definition choice_draw (n : nat) (zeros : Z) (zeros_idx : list nat) : Prop :=
  length zeros_idx = Z.to_nat zeros /\ NoDup zeros_idx /\
  Forall (fun i => (i < n)%nat) zeros_idx.

(** [rand_weights(n, zeros)], from the two random draws it makes: [k] for
    [np.random.rand(n)] and [zeros_idx] for [np.random.choice].  The result
    is [k / sum(k)], cell by cell: a division by a zero sum gives no finite
    number. *)
Definition rand_weights (n : nat) (zeros : Z) (k : list Q)
    (zeros_idx : list nat) : list cell :=
  let k := if (zeros >? 0)%Z then zero_at zeros_idx k else k in
  map (fun x => cell_div (Some x) (Some (py_sum k))) k.

(** ** optimization/cvar.py: the mean-CVaR program *)

Inductive InvestmentType : Type :=
| FULLY_INVESTED
| MARKET_NEUTRAL
| UNCONSTRAINED.

(** Modelled from the spec: [get_investment_target] of the optimization
    helpers, which are not among the sources: "[FULLY_INVESTED] - weights
    sum to 1 -, [MARKET_NEUTRAL] - weights sum to 0", and no budget
    constraint ([None]) for [UNCONSTRAINED]. *)
Definition get_investment_target (investment_type : InvestmentType)
    : option Q :=
  match investment_type with
  | FULLY_INVESTED => Some 1
  | MARKET_NEUTRAL => Some 0
  | UNCONSTRAINED => None
  end.

(** The argument [weight_bounds]: two arrays, or one pair of optional
    floats. *)
Inductive WeightBounds : Type :=
| BoundsArrays (lower upper : list Q)
| BoundsPair (lower upper : option Q).

(** Modelled from the spec: [get_lower_and_upper_bounds] of the
    optimization helpers, which are not among the sources: "per-asset
    lower/upper bound, or a single pair broadcast to all assets".  A bound
    [None] leaves that side free. *)
Definition get_lower_and_upper_bounds (weight_bounds : WeightBounds)
    (assets_number : nat) : list (option Q) * list (option Q) :=
  match weight_bounds with
  | BoundsArrays lower upper => (map (@Some Q) lower, map (@Some Q) upper)
  | BoundsPair lower upper =>
      (repeat lower assets_number, repeat upper assets_number)
  end.

(** The values of the three [cvxpy] variables [w], [alpha] and [u]. *)
Record assignment : Type := mk_assignment {
  w_value : list Q;
  alpha_value : Q;
  u_value : list Q
}.

(** A [cvxpy] constraint, as its truth at a value of the parameter
    [target_cvar] and at values of the variables. *)
Definition constraint : Type := Q -> assignment -> bool.

Inductive objective : Type :=
| Maximize (f : assignment -> Q)
| Minimize (f : assignment -> Q).

(** [cp.Problem(objective, constraints)]. *)
Record Problem : Type := mk_Problem {
  problem_objective : objective;
  problem_constraints : list constraint
}.

(** The assignment satisfies every constraint of the problem. *)
Definition feasible (p : Problem) (target_cvar : Q) (v : assignment) : bool :=
  forallb (fun c : constraint => c target_cvar v) (problem_constraints p).

(** [M @ x], a matrix times a vector. *)
Definition matvec (M : ndarray Q) (x : list Q) : list Q :=
  map (fun row => dot row x) (data M).

(** [x + c], a vector plus a scalar, and [x >= 0], in every component. *)
Definition vadd_scalar (x : list Q) (c : Q) : list Q := map (fun a => a + c) x.

Definition all_nonneg (x : list Q) : bool := forallb (fun a => Qgeb a 0) x.

(** [w >= lower_bounds] and [w <= upper_bounds], component by component. *)
Definition above_bound (x : Q) (bound : option Q) : bool :=
  match bound with Some b => Qgeb x b | None => true end.

Definition below_bound (x : Q) (bound : option Q) : bool :=
  match bound with Some b => Qleb x b | None => true end.

Definition all_above (x : list Q) (bounds : list (option Q)) : bool :=
  forallb (fun p => above_bound (fst p) (snd p)) (combine x bounds).

Definition all_below (x : list Q) (bounds : list (option Q)) : bool :=
  forallb (fun p => below_bound (fst p) (snd p)) (combine x bounds).

(** The problem [mean_cvar] builds, up to [cp.Problem(objective,
    constraints)].  [1.0 / (observations_number * (1 - beta))] is a
    division of Python floats: it raises [ZeroDivisionError] on a zero
    divisor.  The creation of the variables and the shape checks of [cvxpy]
    are not modelled: they accept every call with at least one asset, one
    observation and data of matching shapes. *)
Definition mean_cvar_problem (expected_returns : list Q)
    (returns : ndarray Q) (weight_bounds : WeightBounds)
    (investment_type : InvestmentType) (beta : Q) : exn + Problem :=
  let '(assets_number, observations_number) := shape returns in
  let portfolio_return := fun v => dot expected_returns (w_value v) in
  let divisor := inject_Z (Z.of_nat observations_number) * (1 - beta) in
  if Qeq_bool divisor 0 then inl ZeroDivisionError
  else
    let portfolio_cvar :=
      fun v => alpha_value v + 1 / divisor * Qsum (u_value v) in
    let '(lower_bounds, upper_bounds) :=
      get_lower_and_upper_bounds weight_bounds assets_number in
    let constraints : list constraint :=
      [ (fun target_cvar v => Qleb (portfolio_cvar v) target_cvar);
        (fun _ v =>
           all_nonneg
             (vadd (vadd_scalar (matvec (transpose 0 returns) (w_value v))
                                (alpha_value v))
                   (u_value v)));
        (fun _ v => all_nonneg (u_value v));
        (fun _ v => all_above (w_value v) lower_bounds);
        (fun _ v => all_below (w_value v) upper_bounds) ] in
    let constraints :=
      match get_investment_target investment_type with
      | Some investment_target =>
          constraints
          ++ [fun _ v => Qeq_bool (Qsum (w_value v)) investment_target]
      | None => constraints
      end in
    inr (mk_Problem (Maximize portfolio_return) constraints).

(** The Rockafellar-Uryasev program in the words of the specification, for
    [T] observations and [n] assets: a slack per observation that is at
    least [max(0, -(r_t.w + alpha))], the quantity
    [alpha + sum(u) / (T (1 - beta))] at most the target, the weights within
    their bounds and summing to 1. *)
Definition rockafellar_uryasev (R : ndarray Q) (lower upper : list (option Q))
    (beta target : Q) (v : assignment) : Prop :=
  let '(n, T) := shape R in
  (forall t, (t < T)%nat ->
     Qmax 0 (- (dot (column 0 t (data R)) (w_value v) + alpha_value v))
     <= nth t (u_value v) 0) /\
  alpha_value v
  + (1 / (inject_Z (Z.of_nat T) * (1 - beta))) * Qsum (u_value v) <= target /\
  (forall i, (i < n)%nat ->
     (forall b, nth i lower None = Some b -> b <= nth i (w_value v) 0) /\
     (forall b, nth i upper None = Some b -> nth i (w_value v) 0 <= b)) /\
  Qsum (w_value v) == 1.

(** ** optimization/cvar.py: the sweep of the frontier *)

(** [np.linspace(start, stop, num)]: [num] evenly spaced numbers, the
    last one set to [stop]. *)
Definition linspace (start stop : Q) (num : nat) : list Q :=
  match num with
  | O => []
  | S O => [start]
  | S (S _ as div) =>
      let step := (stop - start) / inject_Z (Z.of_nat div) in
      map (fun i => inject_Z (Z.of_nat i) * step + start) (seq 0 div)
      ++ [stop]
  end.

(** [np.logspace(start, stop, num)], in base 10: the powers of 10 of the
    numbers of [np.linspace]; [pow10] is the function [x -> 10 ** x] of
    [numpy]. *)
Definition logspace (pow10 : Q -> Q) (start stop : Q) (num : nat) : list Q :=
  map pow10 (linspace start stop num).

(** What the convex solver reports for a problem at a value of its
    parameter: an optimal assignment, or a status without one. *)
Inductive SolverResult : Type :=
| Optimal (v : assignment)
| Infeasible
| Unbounded
| SolverFailure.

(** Modelled from the spec: the loop of [get_optimization_weights] (the
    optimization helpers are not among the sources): the weight vectors of
    the grid points that were solved to optimality, in the order of the
    grid. *)
Fixpoint solved_weights (solve : Q -> SolverResult) (parameter_array : list Q)
    : list (list Q) :=
  match parameter_array with
  | [] => []
  | value :: rest =>
      match solve value with
      | Optimal v => w_value v :: solved_weights solve rest
      | _ => solved_weights solve rest
      end
  end.

(** Modelled from the spec: [get_optimization_weights] of the optimization
    helpers, which are not among the sources.  "Each grid point is solved
    independently.  Infeasible or solver-failure points are dropped, not
    retried"; "a frontier sweep drops individual failed grid points and
    returns the remainder [...] unless every point fails, in which case the
    whole call fails with OptimizationFailed".  [solve] is the solver on the
    problem, at a value of the parameter. *)
Definition get_optimization_weights (solve : Q -> SolverResult)
    (parameter_array : list Q) : exn + list (list Q) :=
  match solved_weights solve parameter_array with
  | [] => inl OptimizationFailed
  | weights => inr weights
  end.

(** [mean_cvar], with the power function of [numpy] and the convex solver
    as parameters: the problem, then the sweep over
    [np.logspace(-3.5, -0.5, num=population_size)]. *)
Definition mean_cvar (pow10 : Q -> Q)
    (solver : Problem -> Q -> SolverResult)
    (expected_returns : list Q) (returns : ndarray Q)
    (weight_bounds : WeightBounds) (investment_type : InvestmentType)
    (population_size : nat) (beta : Q) : exn + list (list Q) :=
  match mean_cvar_problem expected_returns returns weight_bounds
                          investment_type beta with
  | inl e => inl e
  | inr problem =>
      get_optimization_weights (solver problem)
        (logspace pow10 (- (7 # 2)) (- (1 # 2)) population_size)
  end.

(** ** assets.py: expected returns *)

(** The numbers of a row of cells, when none of them is missing. *)
Fixpoint finite_row (row : list cell) : option (list Q) :=
  match row with
  | [] => Some []
  | c :: rest =>
      match c, finite_row rest with
      | Some x, Some xs => Some (x :: xs)
      | _, _ => None
      end
  end.

(** [np.mean] of a row of cells: NaN as soon as one cell is. *)
Definition np_mean_cells (row : list cell) : cell :=
  match finite_row row with
  | Some xs => np_mean xs
  | None => None
  end.

(** The property [Assets.mu]: [np.mean(self.returns, axis=1)], one mean
    per asset. *)
Definition mu (prices : DataFrame) : list cell :=
  map np_mean_cells (data (returns prices)).

(** The weights of a portfolio that holds asset [i] only, among [n]. *)
Definition one_hot (n i : nat) : list Q :=
  map (fun k => if Nat.eqb k i then 1 else 0) (seq 0 n).

(** ** utils/tools.py: rebased prices; assets.py: cumulative returns *)

(** [prices_rebased(returns)]: [returns[0]] raises [IndexError] on an empty
    array; the loop over [range(1, len(returns))] appends
    [p[-1] * (1 + returns[i])] to the list [p]. *)
Definition prices_rebased (returns : list Q) : exn + list Q :=
  match returns with
  | [] => inl IndexError
  | r0 :: _ =>
      inr (fold_left (fun p i => p ++ [last p 0 * (1 + nth i returns 0)])
                     (seq 1 (length returns - 1)) [1 + r0])
  end.

(** The product of the numbers of a list. *)
Fixpoint Qprod (l : list Q) : Q :=
  match l with
  | [] => 1
  | x :: l' => x * Qprod l'
  end.

(** The simple return of asset [i] between the dates [j] and [j + 1] of
    the prices [P] (one row per date). *)
Definition simple_return (P : list (list Q)) (j i : nat) : Q :=
  nth i (nth (S j) P []) 0 / nth i (nth j P []) 0 - 1.

(** [df + c]. *)
Definition df_add_scalar (df : DataFrame) (c : Q) : DataFrame :=
  mk_DataFrame (index_is_datetime df) (index df) (columns df)
    (map (map (option_map (fun x => x + c))) (values df)).

(** One cell of [df.cumprod()]: [acc] is the product of the values met so
    far in the column ([None] before the first one); a missing cell stays
    missing and is skipped by the product. *)
Definition cumprod_cell (acc c : cell) : cell :=
  match c with
  | None => None
  | Some x => Some (match acc with None => x | Some a => a * x end)
  end.

Definition cumprod_next (acc c : cell) : cell :=
  match c with
  | None => acc
  | Some _ => cumprod_cell acc c
  end.

Fixpoint cumprod_rows (acc : list cell) (rows : list (list cell))
    : list (list cell) :=
  match rows with
  | [] => []
  | row :: rest =>
      map (fun ac => cumprod_cell (fst ac) (snd ac)) (combine acc row)
      :: cumprod_rows
           (map (fun ac => cumprod_next (fst ac) (snd ac)) (combine acc row))
           rest
  end.

(** [df.cumprod()], down the rows. *)
Definition cumprod (df : DataFrame) : DataFrame :=
  mk_DataFrame (index_is_datetime df) (index df) (columns df)
    (cumprod_rows (repeat None (length (columns df))) (values df)).

(** The property [Assets.cum_returns], computed from [self.prices]:
    [(self.prices.pct_change()[1:] + 1).cumprod()]. *)
Definition cum_returns (prices : DataFrame) : DataFrame :=
  cumprod (df_add_scalar (df_tail (pct_change prices)) 1).

(** ** assets.py: what the fills keep *)

(** The table has one row of cells per date and one cell per asset in each
    row. *)
Definition DataFrame_wf (df : DataFrame) : Prop :=
  length (values df) = length (index df) /\
  Forall (fun row => length row = length (columns df)) (values df).

(** A fill keeps a cell: a price that was there is still there. *)
Definition keeps (old new : cell) : Prop :=
  forall x, old = Some x -> new = Some x.

(** Cell [j] of a row holds a price. *)
Definition present (j : nat) (row : list cell) : Prop :=
  nth j row None <> None.

(** ** optimization/cvar.py: the smallest slacks *)

(** The loss of the portfolio [w] beyond [-alpha] at observation [t]:
    [max(0, -(r_t.w + alpha))], the smallest slack the constraints of
    [mean_cvar] allow for [t]. *)
Definition shortfall (R : ndarray Q) (w : list Q) (alpha : Q) (t : nat) : Q :=
  Qmax 0 (- (dot (column 0 t (data R)) w + alpha)).

Definition shortfalls (R : ndarray Q) (w : list Q) (alpha : Q) : list Q :=
  map (shortfall R w alpha) (seq 0 (snd (shape R))).

(** ** assets.py: the quotient of two prices *)


(* ================================================================== *)
(** * Part II: properties                                              *)
(* ================================================================== *)

(** ** Comparisons *)

Lemma Qleb_iff (x y : Q) : Qleb x y = true <-> x <= y.
Proof. apply Qle_bool_iff. Qed.

Lemma Qltb_iff (x y : Q) : Qltb x y = true <-> x < y.
Proof.
  unfold Qltb. rewrite negb_true_iff.
  destruct (Qle_bool y x) eqn:E.
  - apply Qle_bool_iff in E. split; [discriminate | intros H; lra].
  - split; [intros _ | reflexivity].
    apply Qnot_le_lt. intros H. apply Qle_bool_iff in H. congruence.
Qed.

Lemma Qltb_false_iff (x y : Q) : Qltb x y = false <-> y <= x.
Proof.
  rewrite <- not_true_iff_false, Qltb_iff. split; intros H; lra.
Qed.

Lemma Qgtb_iff (x y : Q) : Qgtb x y = true <-> y < x.
Proof. apply Qltb_iff. Qed.

Lemma Qgeb_iff (x y : Q) : Qgeb x y = true <-> y <= x.
Proof. apply Qleb_iff. Qed.

(** ** Dominance *)

(** What the loop decides, by position. *)
Lemma dominate_loop_true (pairs : list (Q * Q)) (acc : bool) :
  dominate_loop acc pairs = true <->
  Forall (fun p => snd p <= fst p) pairs /\
  (acc = true \/ Exists (fun p => snd p < fst p) pairs).
Proof.
  revert acc; induction pairs as [|[x y] rest IH]; intros acc; simpl.
  - split.
    + intros ->. split; [constructor | now left].
    + intros [_ [H|H]]; [exact H | inversion H].
  - destruct (Qgtb x y) eqn:G.
    + apply Qgtb_iff in G. rewrite IH. split.
      * intros [HF _]. split; [constructor; simpl; [lra|exact HF]|].
        right. constructor. simpl. exact G.
      * intros [HF _]. inversion HF; subst. split; [assumption | now left].
    + apply Qltb_false_iff in G. destruct (Qltb x y) eqn:L.
      * apply Qltb_iff in L. split; [discriminate|].
        intros [HF _]. inversion HF; subst. simpl in *. lra.
      * apply Qltb_false_iff in L. rewrite IH. split.
        -- intros [HF HE]. split; [constructor; simpl; [lra|exact HF]|].
           destruct HE as [HE|HE]; [now left | right; now constructor 2].
        -- intros [HF HE]. inversion HF; subst. split; [assumption|].
           destruct HE as [HE|HE]; [now left|].
           inversion HE; subst; [simpl in *; lra | now right].
Qed.


Lemma combine_swap {A B : Type} (a : list A) (b : list B) :
  combine b a = map (fun p => (snd p, fst p)) (combine a b).
Proof.
  revert b; induction a as [|x a IH]; intros [|y b]; simpl; try reflexivity.
  now rewrite IH.
Qed.

Lemma Forall_combine_nth (P : Q -> Q -> Prop) (a b : list Q) :
  length a = length b ->
  (Forall (fun p => P (fst p) (snd p)) (combine a b) <->
   forall i, (i < length a)%nat -> P (nth i a 0) (nth i b 0)).
Proof.
  revert b; induction a as [|x a IH]; intros [|y b] Hlen; simpl in *;
    try discriminate.
  - split; [intros _ i Hi; lia | constructor].
  - injection Hlen as Hlen. split.
    + intros HF i Hi. inversion HF; subst. destruct i as [|i]; [assumption|].
      apply (proj1 (IH b Hlen)); [assumption | lia].
    + intros H. constructor.
      * apply (H 0%nat). lia.
      * apply (IH b Hlen). intros i Hi. apply (H (S i)). lia.
Qed.

Lemma Exists_combine_nth (P : Q -> Q -> Prop) (a b : list Q) :
  length a = length b ->
  (Exists (fun p => P (fst p) (snd p)) (combine a b) <->
   exists i, (i < length a)%nat /\ P (nth i a 0) (nth i b 0)).
Proof.
  revert b; induction a as [|x a IH]; intros [|y b] Hlen; simpl in *;
    try discriminate.
  - split; [intros H; inversion H | intros [i [Hi _]]; lia].
  - injection Hlen as Hlen. split.
    + intros HE. inversion HE; subst.
      * exists 0%nat. split; [lia | assumption].
      * apply (IH b Hlen) in H0. destruct H0 as [i [Hi HP]].
        exists (S i). split; [lia | assumption].
    + intros [[|i] [Hi HP]]; [now constructor|].
      constructor 2. apply (IH b Hlen). exists i. split; [lia | assumption].
Qed.

Lemma np_all_Forall {A : Type} (f : A -> bool) (l : list A) :
  np_all (map f l) = true <-> Forall (fun x => f x = true) l.
Proof.
  unfold np_all. rewrite forallb_forall, Forall_forall. split.
  - intros H x Hx. apply H. now apply in_map.
  - intros H b Hb. apply in_map_iff in Hb. destruct Hb as [x [<- Hx]]. auto.
Qed.

Lemma np_any_Exists {A : Type} (f : A -> bool) (l : list A) :
  np_any (map f l) = true <-> Exists (fun x => f x = true) l.
Proof.
  unfold np_any. rewrite existsb_exists, Exists_exists. split.
  - intros [b [Hb Hbt]]. apply in_map_iff in Hb. destruct Hb as [x [<- Hx]].
    now exists x.
  - intros [x [Hx Hf]]. exists (f x). split; [now apply in_map | exact Hf].
Qed.

(** The loop of [dominate], read as the two conditions of the
    specification over the zipped vectors. *)
Lemma dominate_true (a b : list Q) :
  dominate a b = true <->
  Forall (fun p => snd p <= fst p) (combine a b) /\
  Exists (fun p => snd p < fst p) (combine a b).
Proof.
  unfold dominate. rewrite dominate_loop_true. split.
  - intros [HF [H|H]]; [discriminate | now split].
  - intros [HF HE]. split; [assumption | now right].
Qed.

(** C3: the dominance relation computed by [dominate] is irreflexive (no
    fitness vector dominates itself) and antisymmetric (when [a] dominates
    [b], [b] does not dominate [a]); both hold for vectors of any lengths,
    equal or not, since [zip] pairs the same positions in both directions. *)
Theorem dominate_irreflexive_antisymmetric (a b : list Q) :
  dominate a a = false /\ (dominate a b = true -> dominate b a = false).
Proof.
  split.
  - apply not_true_iff_false. rewrite dominate_true. intros [_ HE].
    apply Exists_exists in HE. destruct HE as [[x y] [Hin Hlt]].
    assert (x = y) as ->.
    { clear Hlt. induction a as [|z a IH]; simpl in Hin; [contradiction|].
      destruct Hin as [Heq|Hin]; [congruence | auto]. }
    simpl in Hlt. lra.
  - rewrite dominate_true. intros [_ HE].
    apply not_true_iff_false. rewrite dominate_true. intros [HF _].
    rewrite combine_swap, Forall_map in HF. simpl in HF.
    apply Exists_exists in HE. destruct HE as [p [Hin Hlt]].
    rewrite Forall_forall in HF. specialize (HF p Hin). lra.
Qed.

Lemma dominate_irreflexive_antisymmetric_witness :
  dominate [1; 2] [1; 1] = true /\
  dominate [1; 2] [1; 2] = false /\ dominate [1; 1] [1; 2] = false.
Proof.
  split; [reflexivity|].
  split.
  - exact (proj1 (dominate_irreflexive_antisymmetric [1; 2] [1; 1])).
  - exact (proj2 (dominate_irreflexive_antisymmetric [1; 2] [1; 1]) eq_refl).
Defined.

(** C4: on fitness vectors of equal length the loop of [dominate] and the
    vectorised [dominate_slow] return the same boolean, and that boolean
    decides the dominance of the specification: every component of [a] is
    at least the matching component of [b] and one is strictly greater. *)
Theorem dominate_refines_dominate_slow (a b : list Q) :
  length a = length b ->
  dominate_slow a b = Some (dominate a b) /\
  (dominate a b = true <-> dominates_spec a b).
Proof.
  intros Hlen. split.
  - unfold dominate_slow, broadcast. rewrite Hlen, Nat.eqb_refl. f_equal.
    apply eq_true_iff_eq. rewrite andb_true_iff, np_all_Forall, np_any_Exists.
    rewrite dominate_true. split; intros [HF HE]; split.
    + eapply Forall_impl; [|exact HF]. intros p Hp. now apply Qgeb_iff.
    + eapply Exists_impl; [|exact HE]. intros p Hp. now apply Qgtb_iff.
    + eapply Forall_impl; [|exact HF]. intros p Hp. now apply Qgeb_iff in Hp.
    + eapply Exists_impl; [|exact HE]. intros p Hp. now apply Qgtb_iff in Hp.
  - rewrite dominate_true. unfold dominates_spec.
    rewrite (Forall_combine_nth (fun x y => y <= x) a b Hlen).
    rewrite (Exists_combine_nth (fun x y => y < x) a b Hlen). reflexivity.
Qed.

Lemma dominate_refines_dominate_slow_witness :
  dominate_slow [3; 1] [2; 1] = Some (dominate [3; 1] [2; 1]) /\
  (dominate [3; 1] [2; 1] = true <-> dominates_spec [3; 1] [2; 1]).
Proof.
  apply (dominate_refines_dominate_slow [3; 1] [2; 1]). reflexivity.
Defined.

(** ** Walk-forward periods *)

(** Every split yielded from [train_start], by its position in the run. *)
Lemma walk_forward_from_nth (fuel : nat) (end_date train_duration
    test_duration : Z) (full_period : bool) :
  forall (train_start : date) (l : list train_test),
    walk_forward_from fuel end_date train_duration test_duration full_period
                      train_start = Some l ->
    forall i, (i < length l)%nat ->
      let s := nth i l no_split in
      let t := (train_start + Z.of_nat i * test_duration)%Z in
      train_start_of s = t /\
      train_end_of s = (t + train_duration)%Z /\
      test_start_of s = (t + train_duration)%Z /\
      (test_end_of s <= t + train_duration + test_duration)%Z.
Proof.
  induction fuel as [|fuel IH]; intros train_start l Hrun; [discriminate|].
  simpl in Hrun.
  destruct (walk_forward_step end_date train_duration test_duration
              full_period train_start) as [[s next]|] eqn:Hstep.
  - destruct (walk_forward_from fuel end_date train_duration test_duration
                full_period next) as [rest|] eqn:Hrest; [|discriminate].
    injection Hrun as <-.
    unfold walk_forward_step in Hstep.
    assert (Hnext : next = (train_start + test_duration)%Z /\
                    train_start_of s = train_start /\
                    train_end_of s = (train_start + train_duration)%Z /\
                    test_start_of s = (train_start + train_duration)%Z /\
                    (test_end_of s <=
                     train_start + train_duration + test_duration)%Z).
    { destruct (train_start + train_duration + test_duration >? end_date)%Z
        eqn:Hgt.
      - destruct (full_period ||
                  (train_start + train_duration >=? end_date)%Z);
          [discriminate|].
        injection Hstep as <- <-. cbn. lia.
      - injection Hstep as <- <-. cbn. lia. }
    destruct Hnext as [-> Hs]. intros [|i] Hi; cbn zeta.
    + cbn [nth]. rewrite Z.mul_0_l, Z.add_0_r. exact Hs.
    + cbn [nth]. simpl in Hi.
      specialize (IH _ _ Hrest i ltac:(lia)). cbn zeta in IH.
      replace (train_start + Z.of_nat (S i) * test_duration)%Z
        with (train_start + test_duration + Z.of_nat i * test_duration)%Z
        by lia.
      exact IH.
  - injection Hrun as <-. intros i Hi. simpl in Hi. lia.
Qed.

(** With a test period of at least one day the generator returns. *)
Lemma walk_forward_from_returns (end_date train_duration test_duration : Z)
    (full_period : bool) :
  (1 <= test_duration)%Z ->
  forall (fuel : nat) (train_start : date),
    (walk_forward_fuel train_start end_date train_duration test_duration
     <= fuel)%nat ->
    exists l, walk_forward_from fuel end_date train_duration test_duration
                                full_period train_start = Some l.
Proof.
  intros Htest. unfold walk_forward_fuel.
  induction fuel as [|fuel IH]; intros train_start Hfuel; [lia|].
  simpl. unfold walk_forward_step.
  destruct (train_start + train_duration + test_duration >? end_date)%Z
    eqn:Hgt.
  - destruct (full_period || (train_start + train_duration >=? end_date)%Z);
      [now exists []|].
    destruct fuel as [|fuel]; [lia|]. simpl. unfold walk_forward_step.
    assert (Hgt' : (train_start + test_duration + train_duration
                    + test_duration >? end_date)%Z = true) by lia.
    assert (Hge' : (train_start + test_duration + train_duration
                    >=? end_date)%Z = true) by lia.
    rewrite Hgt', Hge', orb_true_r. eauto.
  - destruct (IH (train_start + test_duration)%Z) as [rest ->]; [lia|].
    eauto.
Qed.

(** C10: for a test period of at least one day, [walk_forward] returns, and
    every split it yields has its test period start at the end of its train
    period and last at most [test_duration] days; each next test period
    starts exactly [test_duration] days after the one before, which is at or
    after that one's end, so the test periods are pairwise
    non-overlapping. *)
Theorem walk_forward_test_periods (start_date end_date : date)
    (train_duration test_duration : Z) (full_period : bool) :
  (1 <= test_duration)%Z ->
  (exists l,
     walk_forward
       (walk_forward_fuel start_date end_date train_duration test_duration)
       start_date end_date train_duration test_duration full_period
     = Some l) /\
  forall fuel l,
    walk_forward fuel start_date end_date train_duration test_duration
                 full_period = Some l ->
    (forall i, (i < length l)%nat ->
       let s := nth i l no_split in
       test_start_of s = train_end_of s /\
       (test_end_of s <= test_start_of s + test_duration)%Z) /\
    (forall i, (S i < length l)%nat ->
       let s := nth i l no_split in
       let s' := nth (S i) l no_split in
       test_start_of s' = (test_start_of s + test_duration)%Z /\
       (test_end_of s <= test_start_of s')%Z) /\
    (forall i j, (i < j < length l)%nat ->
       (test_end_of (nth i l no_split)
        <= test_start_of (nth j l no_split))%Z).
Proof.
  intros Htest. split.
  - apply walk_forward_from_returns; [assumption | lia].
  - intros fuel l Hrun. unfold walk_forward in Hrun.
    pose proof (walk_forward_from_nth _ _ _ _ _ _ _ Hrun) as Hnth.
    cbn zeta in Hnth. split; [|split].
    + intros i Hi. cbn zeta. specialize (Hnth i Hi). lia.
    + intros i Hi. cbn zeta.
      pose proof (Hnth i ltac:(lia)) as H1.
      pose proof (Hnth (S i) Hi) as H2. lia.
    + intros i j Hij.
      pose proof (Hnth i ltac:(lia)) as H1.
      pose proof (Hnth j ltac:(lia)) as H2.
      assert (Z.of_nat i + 1 <= Z.of_nat j)%Z by lia. nia.
Qed.

Lemma walk_forward_test_periods_witness :
  exists l,
    walk_forward (walk_forward_fuel 0 14 5 3)%Z 0%Z 14%Z 5%Z 3%Z true
    = Some l /\
    (test_end_of (nth 0 l no_split) <= test_start_of (nth 2 l no_split))%Z.
Proof.
  destruct (walk_forward_test_periods 0%Z 14%Z 5%Z 3%Z true ltac:(lia))
    as [[l Hl] Hall].
  destruct (Hall _ _ Hl) as [_ [_ Hdisjoint]].
  exists l. split; [exact Hl|].
  apply Hdisjoint. vm_compute in Hl. injection Hl as <-. simpl. lia.
Defined.

(** The example of the docstring: five days of train, three of test, over
    fourteen days. *)
Example walk_forward_docstring :
  walk_forward 4 0%Z 14%Z 5%Z 3%Z true
  = Some [((0, 5), (5, 8)); ((3, 8), (8, 11)); ((6, 11), (11, 14))]%Z.
Proof. reflexivity. Qed.

(** Without [full_period] the last test period is cut at [end_date]. *)
Example walk_forward_truncated :
  walk_forward 3 0%Z 10%Z 5%Z 3%Z false
  = Some [((0, 5), (5, 8)); ((3, 8), (8, 10))]%Z.
Proof. reflexivity. Qed.

(** A test period of zero days that fits before [end_date] is yielded for
    ever: the generator never returns. *)
Lemma walk_forward_zero_duration (start_date end_date : date)
    (train_duration : Z) (full_period : bool) (fuel : nat) :
  (start_date + train_duration <= end_date)%Z ->
  walk_forward fuel start_date end_date train_duration 0 full_period = None.
Proof.
  intros H. unfold walk_forward.
  induction fuel as [|fuel IH]; [reflexivity|].
  simpl. unfold walk_forward_step.
  assert (Hgt : (start_date + train_duration + 0 >? end_date)%Z = false)
    by lia.
  rewrite Hgt, Z.add_0_r, IH. reflexivity.
Qed.

(** ** Assets: validation of the thresholds *)

Lemma inside_unit_interval_iff (x : Q) :
  Qltb 0 x && Qltb x 1 = true <-> inside_unit_interval (Some x).
Proof.
  unfold inside_unit_interval. rewrite andb_true_iff, !Qltb_iff. split.
  - intros H. now exists x.
  - intros [y [Hy H]]. now injection Hy as <-.
Qed.

Lemma inside_unit_interval_None : ~ inside_unit_interval None.
Proof. intros [x [H _]]. discriminate. Qed.

(** The two outcomes of [_preprocessing], by the thresholds. *)
Lemma preprocessing_outcome
    (asset_missing_threshold dates_missing_threshold : option Q)
    (prices : DataFrame) :
  ((exists e, _preprocessing asset_missing_threshold dates_missing_threshold
                             prices = inl e) <->
   ~ (inside_unit_interval asset_missing_threshold /\
      inside_unit_interval dates_missing_threshold)) /\
  ((exists a d,
      asset_missing_threshold = Some a /\ dates_missing_threshold = Some d /\
      _preprocessing asset_missing_threshold dates_missing_threshold prices
      = inr (clean_prices a d prices)) <->
   (inside_unit_interval asset_missing_threshold /\
    inside_unit_interval dates_missing_threshold)).
Proof.
  unfold _preprocessing.
  destruct asset_missing_threshold as [a|].
  2:{ pose proof inside_unit_interval_None as HN. split; split.
      - intros _ [H _]. contradiction.
      - intros _. eauto.
      - intros [a [d [H _]]]. discriminate.
      - intros [H _]. contradiction. }
  pose proof (inside_unit_interval_iff a) as Ha.
  destruct (Qltb 0 a && Qltb a 1); simpl.
  2:{ assert (HN : ~ inside_unit_interval (Some a))
        by (rewrite <- Ha; discriminate).
      split; split.
      - intros _ [H _]. contradiction.
      - intros _. eauto.
      - intros [a' [d [_ [_ H]]]]. discriminate.
      - intros [H _]. contradiction. }
  destruct dates_missing_threshold as [d|].
  2:{ pose proof inside_unit_interval_None as HN. split; split.
      - intros _ [_ H]. contradiction.
      - intros _. eauto.
      - intros [a' [d [_ [H _]]]]. discriminate.
      - intros [_ H]. contradiction. }
  pose proof (inside_unit_interval_iff d) as Hd.
  destruct (Qltb 0 d && Qltb d 1); simpl.
  - assert (inside_unit_interval (Some a)) by now apply Ha.
    assert (inside_unit_interval (Some d)) by now apply Hd.
    split; split.
    + intros [e He]. discriminate.
    + intros H1. exfalso. apply H1. now split.
    + intros _. now split.
    + intros _. exists a, d. repeat split.
  - assert (HN : ~ inside_unit_interval (Some d))
      by (rewrite <- Hd; discriminate).
    split; split.
    + intros _ [_ H]. contradiction.
    + intros _. eauto.
    + intros [a' [d' [_ [_ H]]]]. discriminate.
    + intros [_ H]. contradiction.
Qed.

(** C8: [Assets._preprocessing] raises if and only if one of the two
    thresholds is not strictly inside the open interval (0, 1); inside it
    the call returns the cleaned prices, and outside nothing is clamped or
    cleaned: the only outcome is the exception.  So the constructor, once
    the prices pass [_prices_check] and with the preprocessing enabled,
    raises exactly for such thresholds. *)
Theorem preprocessing_raises_iff_threshold_outside
    (a d : option Q) (prices : DataFrame) :
  ((exists e, _preprocessing a d prices = inl e) <->
   ~ (inside_unit_interval a /\ inside_unit_interval d)) /\
  ((exists x y, a = Some x /\ d = Some y /\
      _preprocessing a d prices = inr (clean_prices x y prices)) <->
   (inside_unit_interval a /\ inside_unit_interval d)) /\
  (_prices_check prices = None ->
   ((exists e, Assets_init prices true a d = inl e) <->
    ~ (inside_unit_interval a /\ inside_unit_interval d))).
Proof.
  pose proof (preprocessing_outcome a d prices) as [H1 H2].
  split; [exact H1 | split; [exact H2|]].
  intros Hcheck. unfold Assets_init. rewrite Hcheck. exact H1.
Qed.

Lemma preprocessing_raises_iff_threshold_outside_witness :
  (exists e, Assets_init (price_table [1%Z; 2%Z] ["a"%string] [[10]; [11]])
               true (Some (3 # 2)) (Some (1 # 10)) = inl e) /\
  (exists df, _preprocessing (Some (1 # 10)) (Some (1 # 10))
                (price_table [1%Z; 2%Z] ["a"%string] [[10]; [11]]) = inr df).
Proof.
  split.
  - apply (proj2 (proj2 (preprocessing_raises_iff_threshold_outside
                    (Some (3 # 2)) (Some (1 # 10))
                    (price_table [1%Z; 2%Z] ["a"%string] [[10]; [11]])))
             eq_refl).
    intros [[x [Hx [_ H1]]] _]. injection Hx as <-. revert H1.
    vm_compute. discriminate.
  - destruct (proj1 (proj2 (preprocessing_raises_iff_threshold_outside
                (Some (1 # 10)) (Some (1 # 10))
                (price_table [1%Z; 2%Z] ["a"%string] [[10]; [11]]))))
      as [_ H].
    destruct H as [x [y [_ [_ H]]]].
    + split; exists (1 # 10); repeat split.
    + eexists. exact H.
Defined.

(** ** Assets: simple returns *)

Lemma nth_map_in {A B : Type} (f : A -> B) (l : list A) (d : A) (d' : B)
    (i : nat) :
  (i < length l)%nat -> nth i (map f l) d' = f (nth i l d).
Proof.
  revert i; induction l as [|x l IH]; intros [|i] Hi; simpl in *;
    try lia; [reflexivity | apply IH; lia].
Qed.

Lemma nth_seq_map {B : Type} (f : nat -> B) (n i : nat) (d' : B) :
  (i < n)%nat -> nth i (map f (seq 0 n)) d' = f i.
Proof.
  intros Hi. rewrite (nth_map_in f (seq 0 n) 0%nat d' i).
  - now rewrite seq_nth.
  - now rewrite length_seq.
Qed.

Lemma nth_combine {A B : Type} (l : list A) (l' : list B) (d : A) (d' : B)
    (i : nat) :
  (i < length l)%nat -> (i < length l')%nat ->
  nth i (combine l l') (d, d') = (nth i l d, nth i l' d').
Proof.
  revert l' i; induction l as [|x l IH]; intros [|y l'] [|i] H1 H2;
    simpl in *; try lia; [reflexivity | apply IH; lia].
Qed.

(** A forward fill changes nothing in a table without missing values. *)
Lemma ffill_rows_full (n : nat) (P : list (list Q)) :
  Forall (fun row => length row = n) P ->
  forall prev, length prev = n ->
    ffill_rows prev (map (map (@Some Q)) P) = map (map (@Some Q)) P.
Proof.
  induction 1 as [|row P Hrow _ IH]; intros prev Hprev; [reflexivity|].
  cbn [map ffill_rows]. cbv zeta.
  assert (Hfill : map (fun pc : cell * cell => fill_cell (fst pc) (snd pc))
                    (combine prev (map (@Some Q) row)) = map (@Some Q) row).
  { clear IH. revert prev Hprev. subst n.
    induction row as [|x row IHr]; intros [|p prev] Hprev; simpl in *;
      try discriminate; [reflexivity|].
    f_equal. apply IHr. now injection Hprev. }
  rewrite Hfill. f_equal. apply IH. now rewrite !length_map.
Qed.

Lemma combine_removelast {A B : Type} (l : list A) (x : B) (l' : list B) :
  length l = length l' ->
  combine l (removelast (x :: l')) = combine l (x :: l').
Proof.
  revert x l'; induction l as [|a l IH]; intros x [|y l'] Hlen;
    simpl in *; try discriminate; [reflexivity|].
  f_equal. apply IH. now injection Hlen.
Qed.

(** Row [j] of [pct_change()[1:]] on a table without missing values pairs
    the prices of date [j + 1] with those of date [j]. *)
Lemma pct_change_tail_nth (dates : list date) (names : list string)
    (P : list (list Q)) (j : nat) :
  Forall (fun row => length row = length names) P ->
  (S j < length P)%nat ->
  nth j (values (df_tail (pct_change (price_table dates names P)))) [] =
  map (fun ab : cell * cell => cell_sub (cell_div (fst ab) (snd ab)) 1)
      (combine (map (@Some Q) (nth (S j) P []))
               (map (@Some Q) (nth j P []))).
Proof.
  intros Hwf Hj. unfold pct_change, df_tail, shift1, ffill, price_table.
  cbn [values columns index index_is_datetime].
  rewrite (ffill_rows_full (length names)); [|assumption|apply repeat_length].
  destruct P as [|p0 P]; [simpl in Hj; lia|].
  cbn [map combine tl].
  rewrite combine_removelast by reflexivity.
  change (map (@Some Q) p0 :: map (map (@Some Q)) P)
    with (map (map (@Some Q)) (p0 :: P)).
  simpl in Hj.
  rewrite (nth_map_in _ _ ([], [])).
  2:{ rewrite length_combine, !length_map. simpl. lia. }
  rewrite nth_combine; rewrite ?length_map; simpl length; try lia.
  cbn [fst snd].
  rewrite !(nth_map_in (map (@Some Q)) _ []) by (simpl; lia).
  reflexivity.
Qed.

Lemma length_tl {A : Type} (l : list A) : length (tl l) = (length l - 1)%nat.
Proof. destruct l; simpl; lia. Qed.

(** For a price table of [d] dates and [n] assets without missing
    values and with non-zero prices, [Assets.returns] is an array of shape
    [(n, d - 1)] whose cell [(i, j)] is the simple return
    [prices[j+1][i] / prices[j][i] - 1]; so [asset_nb = n] and
    [date_nb = d - 1]. *)
Theorem returns_simple (dates : list date) (names : list string)
    (P : list (list Q)) (d n : nat) :
  length dates = d -> length names = n -> length P = d ->
  Forall (fun row => length row = n) P ->
  (forall j i, (j < d)%nat -> (i < n)%nat -> ~ nth i (nth j P []) 0 == 0) ->
  let prices := price_table dates names P in
  shape (returns prices) = (n, (d - 1)%nat) /\
  ndarray_wf (returns prices) /\
  asset_nb prices = n /\ date_nb prices = (d - 1)%nat /\
  forall i j, (i < n)%nat -> (j < d - 1)%nat ->
    nth j (nth i (data (returns prices)) []) None =
    Some (nth i (nth (S j) P []) 0 / nth i (nth j P []) 0 - 1).
Proof.
  intros Hdates Hnames HP Hwf Hnz prices.
  assert (Hshape : shape (returns prices) = (n, (d - 1)%nat)).
  { unfold returns, transpose, to_numpy, df_shape, df_tail, pct_change.
    cbn. now rewrite length_tl, Hdates, Hnames. }
  assert (Hrows : length (values (df_tail (pct_change prices))) = (d - 1)%nat).
  { unfold prices, df_tail, pct_change, shift1, ffill, price_table.
    cbn [values columns index index_is_datetime].
    rewrite (ffill_rows_full n); [|assumption|now rewrite repeat_length].
    destruct P as [|p0 P]; [rewrite <- HP; reflexivity|].
    cbn [map combine tl]. rewrite combine_removelast by reflexivity.
    rewrite length_map, length_combine. cbn [length].
    rewrite !length_map, <- HP. simpl. lia. }
  split; [exact Hshape|]. split; [|split; [|split]].
  - unfold ndarray_wf. rewrite Hshape. cbn [fst snd].
    unfold returns, transpose, to_numpy. cbn [data shape df_shape snd fst].
    split.
    + rewrite length_map, length_seq. unfold df_tail, pct_change. cbn.
      exact Hnames.
    + apply Forall_forall. intros row Hin. apply in_map_iff in Hin.
      destruct Hin as [i [<- _]]. unfold column. now rewrite length_map.
  - unfold asset_nb. now rewrite Hshape.
  - unfold date_nb. now rewrite Hshape.
  - intros i j Hi Hj.
    unfold returns, transpose, to_numpy. cbn [data shape df_shape snd fst].
    replace (length (columns (df_tail (pct_change prices)))) with n
      by (unfold df_tail, pct_change; cbn; now rewrite Hnames).
    rewrite nth_seq_map by assumption. unfold column.
    rewrite (nth_map_in _ _ []) by (rewrite Hrows; assumption).
    unfold prices. rewrite pct_change_tail_nth; [|now rewrite Hnames|lia].
    assert (Hlen : forall k, (k < d)%nat -> length (nth k P []) = n).
    { intros k Hk. rewrite Forall_forall in Hwf. apply Hwf, nth_In. lia. }
    rewrite (nth_map_in _ _ (None, None)).
    2:{ rewrite length_combine, !length_map, !Hlen by lia. lia. }
    rewrite nth_combine by (rewrite length_map, Hlen; lia).
    cbn [fst snd].
    rewrite !(nth_map_in (@Some Q) _ 0) by (rewrite Hlen; lia).
    unfold cell_div, cell_sub.
    destruct (Qeq_bool (nth i (nth j P []) 0) 0) eqn:E; [|reflexivity].
    apply Qeq_bool_iff in E. exfalso. apply (Hnz j i); [lia|assumption|exact E].
Qed.

Lemma returns_simple_witness :
  let prices := price_table [1%Z; 2%Z; 3%Z] ["a"%string; "b"%string]
                            [[10; 20]; [11; 25]; [22; 20]] in
  shape (returns prices) = (2%nat, 2%nat) /\
  nth 1 (nth 0 (data (returns prices)) []) None = Some (22 / 11 - 1).
Proof.
  pose proof (returns_simple [1%Z; 2%Z; 3%Z] ["a"%string; "b"%string]
                [[10; 20]; [11; 25]; [22; 20]] 3 2
                eq_refl eq_refl eq_refl) as H.
  cbn zeta in H. destruct H as [Hs [_ [_ [_ Hc]]]].
  - repeat constructor.
  - intros [|[|[|j]]] [|[|i]] Hj Hi; try lia; vm_compute; discriminate.
  - split; [exact Hs|]. apply (Hc 0%nat 1%nat); lia.
Defined.

(** ** Portfolio returns *)

Lemma nth_vadd (a b : list Q) (j : nat) :
  (j < length a)%nat -> (j < length b)%nat ->
  nth j (vadd a b) 0 = nth j a 0 + nth j b 0.
Proof.
  intros Ha Hb. unfold vadd.
  rewrite (nth_map_in _ _ (0, 0)) by (rewrite length_combine; lia).
  now rewrite nth_combine.
Qed.

Lemma nth_vscale (row : list Q) (c : Q) (j : nat) :
  (j < length row)%nat -> nth j (vscale row c) 0 = nth j row 0 * c.
Proof. intros Hj. unfold vscale. now rewrite (nth_map_in _ _ 0). Qed.

Lemma length_vadd (a b : list Q) :
  length a = length b -> length (vadd a b) = length a.
Proof.
  intros H. unfold vadd. rewrite length_map, length_combine. lia.
Qed.

(** The loop from index [s] on: every entry of the accumulator has grown
    by the weighted returns of the assets [s], ..., [s + k - 1]. *)
Lemma portfolio_returns_loop (R : ndarray Q) (w : list Q) (n m : nat) :
  ndarray_wf R -> shape R = (n, m) -> length w = n ->
  forall k s acc,
    (s + k <= n)%nat -> length acc = m ->
    exists r,
      fold_left (portfolio_returns_step R w) (seq s k) (inr acc) = inr r /\
      length r = m /\
      forall j, (j < m)%nat ->
        nth j r 0 ==
        nth j acc 0 +
        Qsum (map (fun i => nth i w 0 * nth j (nth i (data R) []) 0)
                  (seq s k)).
Proof.
  intros [Hrows Hcols] Hshape Hw. rewrite Hshape in Hrows, Hcols.
  cbn [fst snd] in Hrows, Hcols.
  induction k as [|k IH]; intros s acc Hs Hacc.
  - exists acc. split; [reflexivity|]. split; [assumption|].
    intros j _. simpl. lra.
  - cbn [seq fold_left portfolio_returns_step].
    rewrite (nth_error_nth' (data R) []) by lia.
    rewrite (nth_error_nth' w 0) by lia.
    assert (Hrow : length (nth s (data R) []) = m).
    { rewrite Forall_forall in Hcols. apply Hcols, nth_In. lia. }
    destruct (IH (S s) (vadd acc (vscale (nth s (data R) []) (nth s w 0))))
      as [r [Hr [Hlen Hnth]]].
    + lia.
    + rewrite length_vadd; [assumption|].
      unfold vscale. rewrite length_map. lia.
    + exists r. split; [exact Hr|]. split; [exact Hlen|].
      intros j Hj. rewrite (Hnth j Hj).
      rewrite nth_vadd, nth_vscale; unfold vscale; rewrite ?length_map;
        try lia.
      cbn [map Qsum]. ring.
Qed.

Lemma Qsum_map_ext {A : Type} (f g : A -> Q) (l : list A) :
  (forall x, In x l -> f x == g x) -> Qsum (map f l) == Qsum (map g l).
Proof.
  induction l as [|x l IH]; intros H; simpl; [reflexivity|].
  rewrite (H x) by now left. rewrite IH; [reflexivity|].
  intros y Hy. apply H. now right.
Qed.

(** A dot product, read by index. *)
Lemma dot_by_index (a b : list Q) :
  length a = length b ->
  dot a b == Qsum (map (fun i => nth i a 0 * nth i b 0) (seq 0 (length a))).
Proof.
  revert b; induction a as [|x a IH]; intros [|y b] Hlen; simpl in *;
    try discriminate; [reflexivity|].
  unfold dot in *. cbn [combine map Qsum fst snd].
  rewrite <- seq_shift, map_map. rewrite (IH b) by now injection Hlen.
  reflexivity.
Qed.

(** ** Sample statistics respect the equality of numbers *)

Lemma Forall2_by_index (a b : list Q) :
  length a = length b ->
  (forall j, (j < length a)%nat -> nth j a 0 == nth j b 0) ->
  Forall2 Qeq a b.
Proof.
  revert b; induction a as [|x a IH]; intros [|y b] Hlen H; simpl in *;
    try discriminate; constructor.
  - apply (H 0%nat). lia.
  - apply IH; [now injection Hlen|]. intros j Hj. apply (H (S j)). lia.
Qed.

Lemma Qsum_Forall2 (f g : Q -> Q) (x y : list Q) :
  Forall2 (fun a b => f a == g b) x y -> Qsum (map f x) == Qsum (map g y).
Proof.
  induction 1 as [|a b x y Hab _ IH]; simpl; [reflexivity|].
  now rewrite Hab, IH.
Qed.

Lemma np_mean_proper (x y : list Q) :
  Forall2 Qeq x y -> cell_eq (np_mean x) (np_mean y).
Proof.
  intros H. pose proof (Forall2_length H) as Hlen.
  destruct H as [|a b x y Hab H]; simpl; [exact I|].
  unfold Qlen. simpl length in *. rewrite Hlen.
  assert (Hs : Qsum x == Qsum y).
  { rewrite <- (map_id x), <- (map_id y). apply Qsum_Forall2. exact H. }
  now rewrite Hab, Hs.
Qed.

Lemma np_var_proper (ddof : nat) (x y : list Q) :
  Forall2 Qeq x y -> cell_eq (np_var ddof x) (np_var ddof y).
Proof.
  intros H. pose proof (Forall2_length H) as Hlen.
  pose proof (np_mean_proper x y H) as Hm. unfold np_var.
  destruct (np_mean x) as [mx|], (np_mean y) as [my|]; simpl in Hm;
    try contradiction; [|exact I].
  rewrite Hlen. destruct (length y <=? ddof)%nat; simpl; [exact I|].
  assert (Hs : Qsum (map (fun r => (r - mx) * (r - mx)) x) ==
               Qsum (map (fun r => (r - my) * (r - my)) y)).
  { apply Qsum_Forall2. eapply Forall2_impl; [|exact H].
    intros a b Hab. cbn beta. now rewrite Hab, Hm. }
  now rewrite Hs.
Qed.

(** C5: for a return matrix [R] of shape [(n, m)] and [n] weights,
    [portfolio_returns(R, w)] is the vector of length [m] whose entry [j] is
    the sum over the assets [i] of [w_i * R[i][j]]; so the mean of
    [Portfolio(w, R)] is the sample mean of [w.R], and its std is the square
    root of the Bessel-corrected sample variance of [w.R]. *)
Theorem portfolio_returns_weighted (sqrt : Q -> Q) (R : ndarray Q)
    (w : list Q) (n m : nat) :
  ndarray_wf R -> shape R = (n, m) -> length w = n ->
  exists r,
    portfolio_returns R w = inr r /\
    length r = m /\
    (forall j, (j < m)%nat -> nth j r 0 == dot w (column 0 j (data R))) /\
    exists mean var,
      Portfolio_mean (mk_Portfolio w R) = inr mean /\
      cell_eq mean (np_mean (weighted_returns w R)) /\
      Portfolio_std sqrt (mk_Portfolio w R) = inr (option_map sqrt var) /\
      cell_eq var (np_var 1 (weighted_returns w R)).
Proof.
  intros Hwf Hshape Hw.
  destruct (portfolio_returns_loop R w n m Hwf Hshape Hw n 0%nat
              (repeat 0 m)) as [r [Hr [Hlen Hnth]]];
    [lia | apply repeat_length |].
  assert (Hrun : portfolio_returns R w = inr r).
  { unfold portfolio_returns. rewrite Hshape. exact Hr. }
  assert (Hentry : forall j, (j < m)%nat ->
                     nth j r 0 == dot w (column 0 j (data R))).
  { intros j Hj. rewrite (Hnth j Hj).
    rewrite nth_repeat. destruct Hwf as [Hrows _].
    rewrite Hshape in Hrows. cbn [fst] in Hrows.
    rewrite dot_by_index by (unfold column; rewrite length_map; lia).
    rewrite Hw, Qplus_0_l. apply Qsum_map_ext. intros i Hi.
    apply in_seq in Hi. unfold column.
    rewrite (nth_map_in _ _ []) by lia. reflexivity. }
  assert (Heq : Forall2 Qeq r (weighted_returns w R)).
  { unfold weighted_returns. rewrite Hshape. cbn [snd].
    apply Forall2_by_index.
    - now rewrite length_map, length_seq.
    - intros j Hj. rewrite Hlen in Hj.
      rewrite nth_seq_map by assumption. now apply Hentry. }
  exists r. split; [exact Hrun|]. split; [exact Hlen|].
  split; [exact Hentry|].
  exists (np_mean r), (np_var 1 r).
  unfold Portfolio_mean, Portfolio_std, Portfolio_returns, on_returns, np_std.
  cbn [weights assets_returns]. rewrite Hrun.
  split; [reflexivity|]. split; [now apply np_mean_proper|].
  split; [reflexivity | now apply np_var_proper].
Qed.

Lemma portfolio_returns_weighted_witness :
  let R := mk_ndarray (2%nat, 3%nat) [[1; 2; 3]; [4; 5; 6]] in
  let w := [1 # 4; 3 # 4] in
  exists r,
    portfolio_returns R w = inr r /\ length r = 3%nat /\
    nth 2 r 0 == dot w (column 0 2 (data R)).
Proof.
  intros R w.
  destruct (portfolio_returns_weighted (fun x => x) R w 2 3)
    as [r [Hr [Hlen [Hentry _]]]].
  - split; [reflexivity | repeat constructor].
  - reflexivity.
  - reflexivity.
  - exists r. split; [exact Hr|]. split; [exact Hlen|].
    apply Hentry. lia.
Defined.

(** ** Multi-period portfolios *)

Lemma portfolios_fold_add (ps : list Portfolio) (mpp : MultiPeriodPortfolio) :
  portfolios (fold_left add ps mpp) = portfolios mpp ++ ps.
Proof.
  revert mpp; induction ps as [|p ps IH]; intros mpp; simpl.
  - now rewrite app_nil_r.
  - rewrite IH. unfold add. cbn [portfolios]. now rewrite <- app_assoc.
Qed.

Lemma concatenate_returns_concat (ps : list Portfolio) (rs : list (list Q)) :
  Forall2 (fun p r => Portfolio_returns p = inr r) ps rs ->
  concatenate_returns ps = inr (concat rs).
Proof.
  induction 1 as [|p r ps rs Hp _ IH]; simpl; [reflexivity|].
  now rewrite Hp, IH.
Qed.

(** C6: a [MultiPeriodPortfolio] built by adding [P1], ..., [Pk] in this
    order has for return series the concatenation, in this order, of the
    return series of the [Pi], and its mean, std (ddof = 1) and downside std
    are those of the concatenated series.  They are not averages of the
    metrics of the [Pi]: two sub-periods of one and of two dates show a mean
    that differs from the average of the two means. *)
Theorem multi_period_concatenation (sqrt : Q -> Q) (ps : list Portfolio)
    (rs : list (list Q)) :
  Forall2 (fun p r => Portfolio_returns p = inr r) ps rs ->
  let mpp := fold_left add ps MultiPeriodPortfolio_new in
  (MultiPeriodPortfolio_returns mpp = inr (concat rs) /\
   MultiPeriodPortfolio_mean mpp = inr (np_mean (concat rs)) /\
   MultiPeriodPortfolio_std sqrt mpp = inr (np_std sqrt 1 (concat rs)) /\
   MultiPeriodPortfolio_downside_std sqrt mpp
   = inr (downside_std sqrt (concat rs))) /\
  (exists p1 p2 m m1 m2,
     MultiPeriodPortfolio_mean (add (add MultiPeriodPortfolio_new p1) p2)
     = inr (Some m) /\
     Portfolio_mean p1 = inr (Some m1) /\
     Portfolio_mean p2 = inr (Some m2) /\
     ~ m == (m1 + m2) / 2).
Proof.
  intros H mpp.
  assert (Hret : MultiPeriodPortfolio_returns mpp = inr (concat rs)).
  { unfold MultiPeriodPortfolio_returns, mpp. rewrite portfolios_fold_add.
    now apply concatenate_returns_concat. }
  split.
  - unfold MultiPeriodPortfolio_mean, MultiPeriodPortfolio_std,
      MultiPeriodPortfolio_downside_std. rewrite Hret. simpl.
    repeat split.
  - exists (mk_Portfolio [1] (mk_ndarray (1%nat, 1%nat) [[1]])),
           (mk_Portfolio [1] (mk_ndarray (1%nat, 2%nat) [[0; 0]])).
    eexists. eexists. eexists.
    split; [reflexivity|]. split; [reflexivity|]. split; [reflexivity|].
    vm_compute. discriminate.
Qed.

Lemma multi_period_concatenation_witness :
  let p1 := mk_Portfolio [1 # 2; 1 # 2]
                         (mk_ndarray (2%nat, 2%nat) [[1; 2]; [3; 4]]) in
  let p2 := mk_Portfolio [1] (mk_ndarray (1%nat, 1%nat) [[5]]) in
  exists r1 r2,
    Portfolio_returns p1 = inr r1 /\ Portfolio_returns p2 = inr r2 /\
    MultiPeriodPortfolio_returns (add (add MultiPeriodPortfolio_new p1) p2)
    = inr (r1 ++ r2 ++ []).
Proof.
  intros p1 p2. eexists. eexists.
  split; [reflexivity|]. split; [reflexivity|].
  apply (multi_period_concatenation (fun x => x) [p1; p2] [_; _]).
  constructor; [reflexivity|]. constructor; [reflexivity | constructor].
Defined.

(** ** Random weights *)

Lemma py_sum_zeros (n : nat) : py_sum (repeat 0 n) = 0.
Proof.
  unfold py_sum. induction n as [|n IH]; simpl; [reflexivity | exact IH].
Qed.

(** When every index is drawn, every entry is zeroed. *)
Lemma zero_at_all (n : nat) (k : list Q) (zeros_idx : list nat) :
  length k = n -> choice_draw n (Z.of_nat n) zeros_idx ->
  zero_at zeros_idx k = repeat 0 n.
Proof.
  intros Hk [Hlen [Hnd Hlt]]. rewrite Nat2Z.id in Hlen.
  assert (Hall : incl (seq 0 n) zeros_idx).
  { apply NoDup_length_incl; [exact Hnd | rewrite length_seq; lia |].
    intros i Hi. rewrite Forall_forall in Hlt. apply in_seq.
    specialize (Hlt i Hi). lia. }
  unfold zero_at. rewrite Hk.
  assert (Hmap : forall l, incl l zeros_idx ->
            map (fun i => if existsb (Nat.eqb i) zeros_idx then 0
                          else nth i k 0) l = repeat 0 (length l)).
  { induction l as [|i l IH]; intros Hincl; simpl; [reflexivity|].
    assert (Hi : existsb (Nat.eqb i) zeros_idx = true).
    { apply existsb_exists. exists i. split; [apply Hincl; now left|].
      apply Nat.eqb_refl. }
    rewrite Hi. f_equal. apply IH. intros j Hj. apply Hincl. now right. }
  rewrite (Hmap _ Hall). now rewrite length_seq.
Qed.

(** C9, where the code departs from it: with [zeros = n] every entry of the
    draw is set to zero, whatever the draw, so [sum(k)] is zero and no entry
    of [k / sum(k)] is a finite number; the [n] results are NaN and do not
    sum to 1. *)
Theorem rand_weights_all_zeroed (n : nat) (k : list Q) (zeros_idx : list nat) :
  (1 <= n)%nat -> rand_draw n k -> choice_draw n (Z.of_nat n) zeros_idx ->
  py_sum (zero_at zeros_idx k) = 0 /\
  rand_weights n (Z.of_nat n) k zeros_idx = repeat None n.
Proof.
  intros Hn [Hk _] Hidx. pose proof (zero_at_all n k zeros_idx Hk Hidx) as Hz.
  split; [rewrite Hz; apply py_sum_zeros|].
  unfold rand_weights.
  assert (Hpos : (Z.of_nat n >? 0)%Z = true) by lia.
  rewrite Hpos, Hz, py_sum_zeros. clear.
  induction n as [|n IH]; [reflexivity|]. cbn [repeat map].
  rewrite IH. reflexivity.
Qed.

Lemma rand_weights_all_zeroed_witness :
  rand_weights 1 1 [1 # 2] [0%nat] = [None].
Proof.
  apply (rand_weights_all_zeroed 1 [1 # 2] [0%nat]).
  - lia.
  - split; [reflexivity|]. repeat constructor; simpl; lra.
  - split; [reflexivity|]. split; repeat constructor; simpl; auto.
Defined.

(** The same happens without any zeroing when the draw itself is zero:
    [np.random.rand] samples the half-open interval [0, 1). *)
Example rand_weights_zero_draw :
  rand_draw 1 [0] /\ choice_draw 1 0 [] /\ rand_weights 1 0 [0] [] = [None].
Proof.
  split; [|split].
  - split; [reflexivity|]. repeat constructor; simpl; lra.
  - split; [reflexivity|]. split; constructor.
  - reflexivity.
Qed.

Lemma py_sum_Qsum (k : list Q) : py_sum k == Qsum k.
Proof.
  unfold py_sum.
  assert (H : forall acc, fold_left Qplus k acc == acc + Qsum k).
  { induction k as [|x k IH]; intros acc; simpl; [ring|].
    rewrite IH. ring. }
  rewrite H. ring.
Qed.

(** What the code does achieve: whenever the sum of the (zeroed) draw is
    not zero, the result is [n] finite weights that sum to 1. *)
Lemma rand_weights_normalised (n : nat) (zeros : Z) (k : list Q)
    (zeros_idx : list nat) :
  length k = n ->
  let k' := if (zeros >? 0)%Z then zero_at zeros_idx k else k in
  ~ py_sum k' == 0 ->
  exists ws,
    rand_weights n zeros k zeros_idx = map (@Some Q) ws /\
    length ws = n /\ Qsum ws == 1.
Proof.
  intros Hk k' Hsum. exists (map (fun x => x / py_sum k') k').
  split; [|split].
  - unfold rand_weights. fold k'. rewrite map_map. apply map_ext.
    intros x. unfold cell_div.
    destruct (Qeq_bool (py_sum k') 0) eqn:E; [|reflexivity].
    apply Qeq_bool_iff in E. contradiction.
  - rewrite length_map. unfold k'. destruct (zeros >? 0)%Z; [|exact Hk].
    unfold zero_at. now rewrite length_map, length_seq.
  - assert (H : forall l s, Qsum (map (fun x => x / s) l) == Qsum l / s).
    { induction l as [|x l IH]; intros s; simpl.
      - unfold Qdiv. ring.
      - rewrite IH. unfold Qdiv. ring. }
    rewrite H, <- py_sum_Qsum. now field.
Qed.

(** ** The mean-CVaR program *)

Lemma forallb_by_index {A : Type} (f : A -> bool) (l : list A) (d : A) :
  forallb f l = true <-> forall i, (i < length l)%nat -> f (nth i l d) = true.
Proof.
  rewrite forallb_forall. split.
  - intros H i Hi. apply H, nth_In, Hi.
  - intros H x Hx. destruct (In_nth l x d Hx) as [i [Hi <-]]. now apply H.
Qed.

Lemma all_nonneg_by_index (x : list Q) :
  all_nonneg x = true <-> forall t, (t < length x)%nat -> 0 <= nth t x 0.
Proof.
  unfold all_nonneg. rewrite (forallb_by_index _ x 0).
  split; intros H t Ht; specialize (H t Ht); now apply Qgeb_iff.
Qed.

Lemma all_above_by_index (x : list Q) (bounds : list (option Q)) (n : nat) :
  length x = n -> length bounds = n ->
  (all_above x bounds = true <->
   forall i, (i < n)%nat ->
     forall b, nth i bounds None = Some b -> b <= nth i x 0).
Proof.
  intros Hx Hb. unfold all_above.
  rewrite (forallb_by_index _ _ (0, None)), length_combine, Hx, Hb, Nat.min_id.
  split; intros H i Hi.
  - specialize (H i Hi). rewrite nth_combine in H by lia. cbn [fst snd] in H.
    intros b Hbound. rewrite Hbound in H. now apply Qgeb_iff in H.
  - rewrite nth_combine by lia. cbn [fst snd].
    destruct (nth i bounds None) as [b|] eqn:E; [|reflexivity].
    apply Qgeb_iff. now apply H.
Qed.

Lemma all_below_by_index (x : list Q) (bounds : list (option Q)) (n : nat) :
  length x = n -> length bounds = n ->
  (all_below x bounds = true <->
   forall i, (i < n)%nat ->
     forall b, nth i bounds None = Some b -> nth i x 0 <= b).
Proof.
  intros Hx Hb. unfold all_below.
  rewrite (forallb_by_index _ _ (0, None)), length_combine, Hx, Hb, Nat.min_id.
  split; intros H i Hi.
  - specialize (H i Hi). rewrite nth_combine in H by lia. cbn [fst snd] in H.
    intros b Hbound. rewrite Hbound in H. now apply Qleb_iff in H.
  - rewrite nth_combine by lia. cbn [fst snd].
    destruct (nth i bounds None) as [b|] eqn:E; [|reflexivity].
    apply Qleb_iff. now apply H.
Qed.

(** Entry [t] of [returns.T @ w + alpha + u]: the return of the portfolio
    at observation [t], plus [alpha], plus the slack of [t]. *)
Lemma slack_expression_nth (R : ndarray Q) (n T : nat) (v : assignment)
    (t : nat) :
  shape R = (n, T) -> length (u_value v) = T -> (t < T)%nat ->
  nth t (vadd (vadd_scalar (matvec (transpose 0 R) (w_value v))
                           (alpha_value v))
              (u_value v)) 0
  = dot (column 0 t (data R)) (w_value v) + alpha_value v
    + nth t (u_value v) 0.
Proof.
  intros Hshape Hu Ht. unfold matvec, transpose, vadd_scalar.
  rewrite Hshape. cbn [data snd fst].
  rewrite nth_vadd; rewrite ?length_map, ?length_seq; try lia.
  rewrite (nth_map_in _ _ 0) by (rewrite !length_map, length_seq; lia).
  rewrite (nth_map_in _ _ []) by (rewrite length_map, length_seq; lia).
  rewrite nth_seq_map by lia. reflexivity.
Qed.

(** The two linear inequalities on a slack say that it is at least
    [max(0, -(r + alpha))]. *)
Lemma slack_linearization (r alpha u : Q) :
  Qmax 0 (- (r + alpha)) <= u <-> 0 <= u /\ 0 <= r + alpha + u.
Proof.
  rewrite Q.max_lub_iff. split; intros [H1 H2]; split; lra.
Qed.

(** C1: for a return matrix of shape [(n, T)] with [T >= 1], expected
    returns and bounds for the [n] assets, the investment type
    [FULLY_INVESTED] and a confidence [beta] other than 1, [mean_cvar]
    builds the Rockafellar-Uryasev program: the objective maximises [mu.w],
    and the values of [(w, alpha, u)] satisfy the six constraints exactly
    when, for every observation [t], [u_t >= max(0, -(r_t.w + alpha))]
    (that is, [u_t >= 0] and [r_t.w + alpha + u_t >= 0]),
    [alpha + sum(u) / (T (1 - beta)) <= target_cvar], every weight is within
    its bounds, and the weights sum to 1. *)
Theorem mean_cvar_builds_rockafellar_uryasev (mu : list Q) (R : ndarray Q)
    (wb : WeightBounds) (beta : Q) (n T : nat)
    (lower upper : list (option Q)) :
  ndarray_wf R -> shape R = (n, T) -> length mu = n -> (1 <= T)%nat ->
  ~ beta == 1 ->
  get_lower_and_upper_bounds wb n = (lower, upper) ->
  length lower = n -> length upper = n ->
  exists p f,
    mean_cvar_problem mu R wb FULLY_INVESTED beta = inr p /\
    problem_objective p = Maximize f /\
    (forall v, f v = dot mu (w_value v)) /\
    length (problem_constraints p) = 6%nat /\
    forall target v,
      length (w_value v) = n -> length (u_value v) = T ->
      (feasible p target v = true <->
       rockafellar_uryasev R lower upper beta target v) /\
      (forall t, (t < T)%nat ->
         (Qmax 0 (- (dot (column 0 t (data R)) (w_value v) + alpha_value v))
          <= nth t (u_value v) 0 <->
          0 <= nth t (u_value v) 0 /\
          0 <= nth t (matvec (transpose 0 R) (w_value v)) 0 + alpha_value v
               + nth t (u_value v) 0)).
Proof.
  intros _ Hshape Hmu HT Hbeta Hbounds Hlower Hupper.
  assert (Hdiv : Qeq_bool (inject_Z (Z.of_nat T) * (1 - beta)) 0 = false).
  { apply not_true_iff_false. intros E. apply Qeq_bool_iff in E.
    apply Qmult_integral in E. destruct E as [E|E]; [|apply Hbeta; lra].
    assert (0 < inject_Z (Z.of_nat T)).
    { change 0 with (inject_Z 0). rewrite <- Zlt_Qlt. lia. }
    lra. }
  unfold mean_cvar_problem. rewrite Hshape, Hdiv, Hbounds.
  cbn [get_investment_target app].
  eexists. eexists. split; [reflexivity|]. cbn [problem_objective].
  split; [reflexivity|]. split; [reflexivity|]. split; [reflexivity|].
  intros target v Hw Hu.
  assert (Hmat : forall t, (t < T)%nat ->
            nth t (matvec (transpose 0 R) (w_value v)) 0
            = dot (column 0 t (data R)) (w_value v)).
  { intros t Ht. unfold matvec, transpose. rewrite Hshape. cbn [data snd fst].
    rewrite (nth_map_in _ _ []) by (rewrite length_map, length_seq; lia).
    now rewrite nth_seq_map by lia. }
  split.
  - unfold feasible, rockafellar_uryasev. rewrite Hshape.
    cbn [problem_constraints forallb].
    rewrite !andb_true_iff, Qleb_iff, !all_nonneg_by_index.
    rewrite (all_above_by_index _ _ n Hw Hlower).
    rewrite (all_below_by_index _ _ n Hw Hupper).
    rewrite Qeq_bool_iff.
    assert (Hlen : length (vadd (vadd_scalar
                     (matvec (transpose 0 R) (w_value v)) (alpha_value v))
                     (u_value v)) = T).
    { rewrite length_vadd; unfold vadd_scalar, matvec, transpose;
        rewrite Hshape; cbn [data snd fst];
        rewrite !length_map, length_seq; [reflexivity | now rewrite Hu]. }
    rewrite Hlen, Hu. split.
    + intros [Hcvar [Hslack [Hpos [Hlo [Hup [Hsum _]]]]]].
      split; [|split; [exact Hcvar | split; [|exact Hsum]]].
      * intros t Ht. apply slack_linearization. split; [now apply Hpos|].
        rewrite <- (slack_expression_nth R n T v t Hshape Hu Ht).
        now apply Hslack.
      * intros i Hi. split; [now apply Hlo | now apply Hup].
    + intros [Hslack [Hcvar [Hb Hsum]]].
      split; [exact Hcvar|]. split; [|split; [|split; [|split;
        [|split; [exact Hsum | reflexivity]]]]].
      * intros t Ht. rewrite (slack_expression_nth R n T v t Hshape Hu Ht).
        exact (proj2 (proj1 (slack_linearization _ _ _) (Hslack t Ht))).
      * intros t Ht.
        exact (proj1 (proj1 (slack_linearization _ _ _) (Hslack t Ht))).
      * intros i Hi. exact (proj1 (Hb i Hi)).
      * intros i Hi. exact (proj2 (Hb i Hi)).
  - intros t Ht. rewrite (Hmat t Ht). apply slack_linearization.
Qed.

Lemma mean_cvar_builds_rockafellar_uryasev_witness :
  exists p,
    mean_cvar_problem [1; 2] (mk_ndarray (2%nat, 3%nat) [[1; 2; 3]; [4; 5; 6]])
                      (BoundsPair (Some 0) None) FULLY_INVESTED (19 # 20)
    = inr p /\
    length (problem_constraints p) = 6%nat.
Proof.
  destruct (mean_cvar_builds_rockafellar_uryasev [1; 2]
              (mk_ndarray (2%nat, 3%nat) [[1; 2; 3]; [4; 5; 6]])
              (BoundsPair (Some 0) None) (19 # 20) 2 3
              [Some 0; Some 0] [None; None])
    as [p [f [Hp [_ [_ [Hlen _]]]]]].
  - split; [reflexivity | repeat constructor].
  - reflexivity.
  - reflexivity.
  - lia.
  - intros H. vm_compute in H. discriminate.
  - reflexivity.
  - reflexivity.
  - reflexivity.
  - exists p. split; assumption.
Defined.

(** ** The sweep of the frontier *)

Lemma length_linspace (start stop : Q) (num : nat) :
  length (linspace start stop num) = num.
Proof.
  destruct num as [|[|num]]; simpl; try reflexivity.
  rewrite length_app, !length_map, length_seq. simpl. lia.
Qed.

(** The numbers of [np.linspace] are evenly spaced from [start] to [stop]:
    number [i] is [start + i (stop - start) / (num - 1)], written without
    the division. *)
Lemma linspace_nth (start stop : Q) (num i : nat) :
  (i < num)%nat ->
  nth i (linspace start stop num) 0 * inject_Z (Z.of_nat (num - 1))
  == start * inject_Z (Z.of_nat (num - 1))
     + inject_Z (Z.of_nat i) * (stop - start).
Proof.
  intros Hi. destruct num as [|[|num]]; [lia | |].
  - assert (i = 0%nat) as -> by lia. simpl. ring.
  - cbn [linspace]. replace (S (S num) - 1)%nat with (S num) by lia.
    set (div := inject_Z (Z.of_nat (S num))).
    assert (Hdiv : ~ div == 0).
    { unfold div, Qeq. cbn [Qnum Qden inject_Z]. lia. }
    destruct (Nat.eq_dec i (S num)) as [->|Hne].
    + rewrite app_nth2; rewrite length_map, length_seq; [|lia].
      rewrite Nat.sub_diag. cbn [nth]. fold div. ring.
    + rewrite app_nth1 by (rewrite length_map, length_seq; lia).
      rewrite nth_seq_map by lia. fold div. field. exact Hdiv.
Qed.

Lemma length_solved_weights (solve : Q -> SolverResult) (grid : list Q) :
  (length (solved_weights solve grid) <= length grid)%nat.
Proof.
  induction grid as [|g grid IH]; simpl; [lia|].
  destruct (solve g); simpl; lia.
Qed.

Lemma solved_weights_shape (solve : Q -> SolverResult) (grid : list Q)
    (n : nat) :
  (forall target v, solve target = Optimal v -> length (w_value v) = n) ->
  Forall (fun w => length w = n) (solved_weights solve grid).
Proof.
  intros Hshape. induction grid as [|g grid IH]; simpl; [constructor|].
  destruct (solve g) eqn:E; try exact IH.
  constructor; [now apply (Hshape g) | exact IH].
Qed.

Lemma solved_weights_nil (solve : Q -> SolverResult) (grid : list Q) :
  solved_weights solve grid = [] <->
  forall g, In g grid -> forall v, solve g <> Optimal v.
Proof.
  induction grid as [|g grid IH]; simpl.
  - split; [intros _ g [] | reflexivity].
  - destruct (solve g) eqn:E.
    + split; [discriminate|]. intros H. exfalso.
      apply (H g (or_introl eq_refl) v). exact E.
    + rewrite IH. split.
      * intros H g' [<-|Hin] v'; [congruence | now apply H].
      * intros H g' Hin. apply H. now right.
    + rewrite IH. split.
      * intros H g' [<-|Hin] v'; [congruence | now apply H].
      * intros H g' Hin. apply H. now right.
    + rewrite IH. split.
      * intros H g' [<-|Hin] v'; [congruence | now apply H].
      * intros H g' Hin. apply H. now right.
Qed.

(** C2: for a population size [N >= 1], the sweep of [mean_cvar] hands to
    the solver the one problem at each of the [N] targets of a logarithmic
    grid (the powers of 10 of [N] exponents evenly spaced from -3.5 to
    -0.5); it returns, in the order of the grid, the weights of the targets
    that were solved, so at most [N] vectors, each of one weight per asset;
    a target that is not solved is dropped, and the call fails, with
    [OptimizationFailed], exactly when no target is solved. *)
Theorem mean_cvar_frontier_sweep (pow10 : Q -> Q)
    (solver : Problem -> Q -> SolverResult) (mu : list Q) (R : ndarray Q)
    (wb : WeightBounds) (investment_type : InvestmentType) (beta : Q)
    (N n T : nat) :
  (1 <= N)%nat -> shape R = (n, T) -> (1 <= T)%nat -> ~ beta == 1 ->
  (forall p target v, solver p target = Optimal v -> length (w_value v) = n) ->
  let exponents := linspace (- (7 # 2)) (- (1 # 2)) N in
  let grid := map pow10 exponents in
  let result := mean_cvar pow10 solver mu R wb investment_type N beta in
  exists problem,
    mean_cvar_problem mu R wb investment_type beta = inr problem /\
    length grid = N /\
    (forall i, (i < N)%nat ->
       nth i exponents 0 * inject_Z (Z.of_nat (N - 1))
       == - (7 # 2) * inject_Z (Z.of_nat (N - 1))
          + inject_Z (Z.of_nat i) * 3) /\
    (result = inl OptimizationFailed \/
     exists weights, result = inr weights) /\
    (result = inl OptimizationFailed <->
     forall g, In g grid -> forall v, solver problem g <> Optimal v) /\
    (forall weights, result = inr weights ->
       weights = solved_weights (solver problem) grid /\
       (1 <= length weights <= N)%nat /\
       Forall (fun w => length w = n) weights).
Proof.
  intros HN Hshape HT Hbeta Hsolver exponents grid result.
  assert (Hdiv : Qeq_bool (inject_Z (Z.of_nat T) * (1 - beta)) 0 = false).
  { apply not_true_iff_false. intros E. apply Qeq_bool_iff in E.
    apply Qmult_integral in E. destruct E as [E|E]; [|apply Hbeta; lra].
    assert (0 < inject_Z (Z.of_nat T)).
    { change 0 with (inject_Z 0). rewrite <- Zlt_Qlt. lia. }
    lra. }
  assert (Hproblem : exists problem,
            mean_cvar_problem mu R wb investment_type beta = inr problem).
  { unfold mean_cvar_problem. rewrite Hshape, Hdiv.
    destruct (get_lower_and_upper_bounds wb n). eauto. }
  destruct Hproblem as [problem Hproblem]. exists problem.
  assert (Hgrid : length grid = N).
  { unfold grid, exponents. now rewrite length_map, length_linspace. }
  assert (Hresult : result = get_optimization_weights (solver problem) grid).
  { unfold result, mean_cvar. now rewrite Hproblem. }
  split; [exact Hproblem|]. split; [exact Hgrid|]. split.
  { intros i Hi. unfold exponents. rewrite (linspace_nth _ _ N i Hi).
    ring. }
  rewrite Hresult. unfold get_optimization_weights.
  pose proof (length_solved_weights (solver problem) grid) as Hlen.
  pose proof (solved_weights_shape (solver problem) grid n
                (Hsolver problem)) as Hsh.
  pose proof (solved_weights_nil (solver problem) grid) as Hnil.
  destruct (solved_weights (solver problem) grid) as [|w ws] eqn:Hws.
  - split; [now left|]. split.
    + split; [intros _; now apply Hnil | reflexivity].
    + intros weights H. discriminate.
  - split; [right; eauto|]. split.
    + split; [discriminate|]. intros H. apply Hnil in H. discriminate.
    + intros weights H. injection H as <-. split; [reflexivity|].
      split; [simpl in *; lia | exact Hsh].
Qed.

Lemma mean_cvar_frontier_sweep_witness :
  let solver := fun (_ : Problem) (target : Q) =>
    if Qleb target (- 1) then Optimal (mk_assignment [1; 0] 0 [0; 0; 0])
    else Infeasible in
  mean_cvar (fun x => x) solver [1; 2]
            (mk_ndarray (2%nat, 3%nat) [[1; 2; 3]; [4; 5; 6]])
            (BoundsPair (Some 0) None) FULLY_INVESTED 4 (19 # 20)
  = inr [[1; 0]; [1; 0]; [1; 0]].
Proof.
  intros solver.
  destruct (mean_cvar_frontier_sweep (fun x => x) solver [1; 2]
              (mk_ndarray (2%nat, 3%nat) [[1; 2; 3]; [4; 5; 6]])
              (BoundsPair (Some 0) None) FULLY_INVESTED (19 # 20) 4 2 3)
    as [problem [_ [_ [_ [Hres _]]]]].
  - lia.
  - reflexivity.
  - lia.
  - intros H. vm_compute in H. discriminate.
  - intros p target v. unfold solver.
    destruct (Qleb target (- 1)); [|discriminate].
    intros H. injection H as <-. reflexivity.
  - destruct Hres as [Hfail | [weights Hw]].
    + vm_compute in Hfail. discriminate.
    + rewrite Hw. vm_compute in Hw. injection Hw as <-. reflexivity.
Defined.

(* ================================================================== *)
(** * Part III: further properties of the code                         *)
(* ================================================================== *)

(** ** walk_forward: bounds, count and coverage *)

(** One pass of the loop, by cases: what is yielded and when. *)
Lemma walk_forward_step_cases (end_date train_duration test_duration : Z)
    (full_period : bool) (train_start : date) (s : train_test) (next : date) :
  walk_forward_step end_date train_duration test_duration full_period
                    train_start = Some (s, next) ->
  next = (train_start + test_duration)%Z /\
  train_start_of s = train_start /\
  train_end_of s = (train_start + train_duration)%Z /\
  test_start_of s = (train_start + train_duration)%Z /\
  ((test_end_of s = (train_start + train_duration + test_duration)%Z /\
    (test_end_of s <= end_date)%Z) \/
   (full_period = false /\ test_end_of s = end_date /\
    (train_start + train_duration < end_date)%Z /\
    (end_date < train_start + train_duration + test_duration)%Z)).
Proof.
  unfold walk_forward_step. intros H.
  destruct (train_start + train_duration + test_duration >? end_date)%Z eqn:Hgt.
  - destruct full_period; [discriminate|]. cbn [orb] in H.
    destruct (train_start + train_duration >=? end_date)%Z eqn:Hge;
      [discriminate|].
    injection H as <- <-. cbn. repeat split; try reflexivity.
    right. repeat split; lia.
  - injection H as <- <-. cbn. repeat split; try reflexivity.
    left. split; [reflexivity | lia].
Qed.


Lemma walk_forward_from_bounds (end_date train_duration test_duration : Z)
    (full_period : bool) :
  (1 <= test_duration)%Z ->
  forall (fuel : nat) (train_start : date) (l : list train_test),
    walk_forward_from fuel end_date train_duration test_duration full_period
                      train_start = Some l ->
    Forall (fun s =>
              (train_start <= train_start_of s)%Z /\
              train_end_of s = (train_start_of s + train_duration)%Z /\
              (test_start_of s < test_end_of s)%Z /\
              (test_end_of s <= end_date)%Z /\
              (full_period = true ->
               test_end_of s = (test_start_of s + test_duration)%Z)) l.
Proof.
  intros Htest. induction fuel as [|fuel IH]; intros train_start l Hrun;
    [discriminate|].
  simpl in Hrun.
  destruct (walk_forward_step end_date train_duration test_duration
              full_period train_start) as [[s next]|] eqn:Hstep.
  - destruct (walk_forward_from fuel end_date train_duration test_duration
                full_period next) as [rest|] eqn:Hrest; [|discriminate].
    injection Hrun as <-.
    apply walk_forward_step_cases in Hstep.
    destruct Hstep as [-> [Hts [Hte [Hss Hse]]]].
    constructor.
    + destruct Hse as [[Hse Hle] | [Hfull [Hse [Hlt Hcut]]]].
      * repeat split; try lia.
      * repeat split; try lia. intros Htrue. congruence.
    + specialize (IH _ _ Hrest). eapply Forall_impl; [|exact IH].
      intros s' Hs'. cbn beta in Hs'. repeat split; try tauto. lia.
  - injection Hrun as <-. constructor.
Qed.

(** X1: for a test period of at least one day, every split that
    [walk_forward] yields has a train period of [train_duration] days that
    starts at or after [start_date], and a test period that is not empty
    and ends at or before [end_date]; with [full_period] every test period
    lasts exactly [test_duration] days. *)
Theorem walk_forward_within_bounds (fuel : nat) (start_date end_date : date)
    (train_duration test_duration : Z) (full_period : bool)
    (l : list train_test) (s : train_test) :
  (1 <= test_duration)%Z ->
  walk_forward fuel start_date end_date train_duration test_duration
               full_period = Some l ->
  In s l ->
  (start_date <= train_start_of s)%Z /\
  train_end_of s = (train_start_of s + train_duration)%Z /\
  (test_start_of s < test_end_of s)%Z /\
  (test_end_of s <= end_date)%Z /\
  (full_period = true -> test_end_of s = (test_start_of s + test_duration)%Z).
Proof.
  intros Htest Hrun Hin. unfold walk_forward in Hrun.
  pose proof (walk_forward_from_bounds _ _ _ _ Htest _ _ _ Hrun) as H.
  rewrite Forall_forall in H. exact (H s Hin).
Qed.

Lemma walk_forward_within_bounds_witness :
  (test_end_of ((3, 8), (8, 10)) <= 10)%Z.
Proof.
  apply (walk_forward_within_bounds 3 0%Z 10%Z 5%Z 3%Z false
           [((0, 5), (5, 8)); ((3, 8), (8, 10))]%Z ((3, 8), (8, 10))%Z).
  - lia.
  - reflexivity.
  - right. left. reflexivity.
Defined.

Lemma walk_forward_from_count (end_date train_duration test_duration : Z) :
  (1 <= test_duration)%Z ->
  forall (fuel : nat) (train_start : date) (l : list train_test),
    walk_forward_from fuel end_date train_duration test_duration true
                      train_start = Some l ->
    Z.of_nat (length l)
    = Z.max 0 ((end_date - train_start - train_duration) / test_duration).
Proof.
  intros Htest. induction fuel as [|fuel IH]; intros train_start l Hrun;
    [discriminate|].
  simpl in Hrun. unfold walk_forward_step in Hrun.
  destruct (train_start + train_duration + test_duration >? end_date)%Z eqn:Hgt.
  - cbn [orb] in Hrun. injection Hrun as <-. cbn [length].
    assert ((end_date - train_start - train_duration) / test_duration <= 0)%Z.
    { destruct (Z_lt_le_dec (end_date - train_start - train_duration) 0)
        as [Hneg|Hpos].
      - assert ((end_date - train_start - train_duration) / test_duration
                < 0)%Z by (apply Z.div_lt_upper_bound; lia). lia.
      - rewrite Z.div_small by lia. lia. }
    lia.
  - destruct (walk_forward_from fuel end_date train_duration test_duration
                true (train_start + test_duration)%Z) as [rest|] eqn:Hrest;
      [|discriminate].
    injection Hrun as <-. cbn [length]. rewrite Nat2Z.inj_succ.
    rewrite (IH _ _ Hrest).
    replace (end_date - train_start - train_duration)%Z
      with ((end_date - (train_start + test_duration) - train_duration)
            + 1 * test_duration)%Z by lia.
    rewrite Z.div_add by lia.
    assert (0 <= (end_date - (train_start + test_duration) - train_duration)
                 / test_duration)%Z by (apply Z.div_pos; lia).
    lia.
Qed.

(** X2: with [full_period] and a test period of at least one day,
    [walk_forward] yields as many splits as test periods fit after the
    first train period: the quotient of
    [end_date - start_date - train_duration] by [test_duration], or none
    when that is negative. *)
Theorem walk_forward_count (fuel : nat) (start_date end_date : date)
    (train_duration test_duration : Z) (l : list train_test) :
  (1 <= test_duration)%Z ->
  walk_forward fuel start_date end_date train_duration test_duration true
  = Some l ->
  Z.of_nat (length l)
  = Z.max 0 ((end_date - start_date - train_duration) / test_duration).
Proof.
  intros Htest Hrun. now apply (walk_forward_from_count _ _ _ Htest fuel).
Qed.

Lemma walk_forward_count_witness :
  Z.of_nat (length [((0, 5), (5, 8)); ((3, 8), (8, 11));
                    ((6, 11), (11, 14))]%Z)
  = Z.max 0 ((14 - 0 - 5) / 3).
Proof.
  apply (walk_forward_count 4 0%Z 14%Z 5%Z 3%Z); [lia | reflexivity].
Defined.





(** X4: with a test period of zero days and a train period of
    [train_duration >= 0] days that ends by [end_date], the generator never
    returns: every pass of the loop yields the same split, with an empty
    test period, and leaves [train_start] where it is. *)
Theorem walk_forward_never_returns (fuel : nat) (start_date end_date : date)
    (train_duration : Z) (full_period : bool) :
  (0 <= train_duration)%Z ->
  (start_date + train_duration <= end_date)%Z ->
  walk_forward_step end_date train_duration 0 full_period start_date
  = Some (((start_date, (start_date + train_duration)%Z),
           ((start_date + train_duration)%Z,
            (start_date + train_duration)%Z)), start_date) /\
  walk_forward fuel start_date end_date train_duration 0 full_period = None.
Proof.
  intros _ Hfit. split.
  - unfold walk_forward_step.
    assert (Hgt : (start_date + train_duration + 0 >? end_date)%Z = false)
      by lia.
    rewrite Hgt, !Z.add_0_r. reflexivity.
  - now apply walk_forward_zero_duration.
Qed.

Lemma walk_forward_never_returns_witness :
  walk_forward 100 0%Z 10%Z 5%Z 0%Z true = None.
Proof.
  apply (walk_forward_never_returns 100 0%Z 10%Z 5%Z true); lia.
Defined.

(** ** dominate: a strict order, and vectors of different lengths *)

(** X5: on fitness vectors of one length whose objectives are all real
    numbers (no NaN), the dominance computed by [dominate] is transitive:
    when [a] dominates [b] and [b] dominates [c], [a] dominates [c]. *)
Theorem dominate_transitive (a b c : list Q) :
  length a = length b -> length b = length c ->
  dominate a b = true -> dominate b c = true -> dominate a c = true.
Proof.
  intros Hab Hbc. rewrite !dominate_true.
  rewrite (Forall_combine_nth (fun x y => y <= x) a b Hab).
  rewrite (Exists_combine_nth (fun x y => y < x) a b Hab).
  rewrite (Forall_combine_nth (fun x y => y <= x) b c Hbc).
  rewrite (Exists_combine_nth (fun x y => y < x) b c Hbc).
  assert (Hac : length a = length c) by congruence.
  rewrite (Forall_combine_nth (fun x y => y <= x) a c Hac).
  rewrite (Exists_combine_nth (fun x y => y < x) a c Hac).
  intros [H1 [i [Hi Hlt]]] [H2 _]. split.
  - intros k Hk. specialize (H1 k Hk). specialize (H2 k ltac:(lia)). lra.
  - exists i. split; [exact Hi|]. specialize (H2 i ltac:(lia)). lra.
Qed.

Lemma dominate_transitive_witness :
  dominate [3; 2] [1; 1] = true.
Proof.
  apply (dominate_transitive [3; 2] [2; 2] [1; 1]); reflexivity.
Defined.

Lemma combine_app_l {A B : Type} (a extra : list A) (b : list B) :
  length a = length b -> combine (a ++ extra) b = combine a b.
Proof.
  revert b; induction a as [|x a IH]; intros [|y b] Hlen; simpl in *;
    try discriminate.
  - now destruct extra.
  - f_equal. apply IH. now injection Hlen.
Qed.

Lemma combine_app_r {A B : Type} (a : list A) (b extra : list B) :
  length a = length b -> combine a (b ++ extra) = combine a b.
Proof.
  revert b; induction a as [|x a IH]; intros [|y b] Hlen; simpl in *;
    try discriminate; [reflexivity|].
  f_equal. apply IH. now injection Hlen.
Qed.

(** X6: [dominate] does not check that the two fitness vectors have one
    length: objectives appended to either vector are never looked at, and
    the answer is the one for the common prefix.  [dominate_slow] raises on
    the same input when both vectors have two objectives or more. *)
Theorem dominate_ignores_extra_objectives (a b extra : list Q) :
  length a = length b ->
  dominate (a ++ extra) b = dominate a b /\
  dominate a (b ++ extra) = dominate a b /\
  ((2 <= length a)%nat -> extra <> [] ->
   dominate_slow (a ++ extra) b = None /\
   dominate_slow a (b ++ extra) = None).
Proof.
  intros Hlen. unfold dominate.
  rewrite (combine_app_l a extra b Hlen), (combine_app_r a b extra Hlen).
  split; [reflexivity|]. split; [reflexivity|].
  intros H2 Hextra. unfold dominate_slow, broadcast.
  rewrite !length_app.
  assert (Hpos : (1 <= length extra)%nat).
  { destruct extra; [contradiction | simpl; lia]. }
  assert (E1 : Nat.eqb (length a + length extra) (length b) = false)
    by (apply Nat.eqb_neq; lia).
  assert (E2 : Nat.eqb (length b) 1 = false) by (apply Nat.eqb_neq; lia).
  assert (E3 : Nat.eqb (length a + length extra) 1 = false)
    by (apply Nat.eqb_neq; lia).
  assert (E4 : Nat.eqb (length a) (length b + length extra) = false)
    by (apply Nat.eqb_neq; lia).
  assert (E5 : Nat.eqb (length b + length extra) 1 = false)
    by (apply Nat.eqb_neq; lia).
  assert (E6 : Nat.eqb (length a) 1 = false) by (apply Nat.eqb_neq; lia).
  now rewrite E1, E2, E3, E4, E5, E6.
Qed.

Lemma dominate_ignores_extra_objectives_witness :
  dominate ([2; 1] ++ [0]) [1; 1] = dominate [2; 1] [1; 1] /\
  dominate_slow ([2; 1] ++ [0]) [1; 1] = None.
Proof.
  destruct (dominate_ignores_extra_objectives [2; 1] [1; 1] [0] eq_refl)
    as [H1 [_ H3]].
  split; [exact H1|]. apply H3; [simpl; lia | discriminate].
Defined.

(** ** portfolio_returns: indices, linearity, expected return *)

Lemma portfolio_returns_step_error (R : ndarray Q) (w : list Q) (e : exn)
    (l : list nat) :
  fold_left (portfolio_returns_step R w) l (inl e) = inl e.
Proof. induction l as [|i l IH]; simpl; [reflexivity | exact IH]. Qed.

(** The loop in range of both the rows and the weights does not raise. *)
Lemma portfolio_returns_loop_runs (R : ndarray Q) (w : list Q) (n m : nat) :
  ndarray_wf R -> shape R = (n, m) ->
  forall k s acc,
    (s + k <= n)%nat -> (s + k <= length w)%nat -> length acc = m ->
    exists r,
      fold_left (portfolio_returns_step R w) (seq s k) (inr acc) = inr r /\
      length r = m.
Proof.
  intros [Hrows Hcols] Hshape. rewrite Hshape in Hrows, Hcols.
  cbn [fst snd] in Hrows, Hcols.
  induction k as [|k IH]; intros s acc Hs Hw Hacc.
  - exists acc. now split.
  - cbn [seq fold_left portfolio_returns_step].
    rewrite (nth_error_nth' (data R) []) by lia.
    rewrite (nth_error_nth' w 0) by lia.
    apply IH; try lia.
    rewrite length_vadd; [assumption|].
    unfold vscale. rewrite length_map.
    rewrite Forall_forall in Hcols. rewrite Hacc. symmetry.
    apply Hcols, nth_In. lia.
Qed.

Lemma fold_left_ext_in {A B : Type} (f g : A -> B -> A) (l : list B) (a : A) :
  (forall x y, In y l -> f x y = g x y) -> fold_left f l a = fold_left g l a.
Proof.
  revert a; induction l as [|y l IH]; intros a H; simpl; [reflexivity|].
  rewrite (H a y) by now left. apply IH. intros x z Hz. apply H. now right.
Qed.

(** X7: on a return matrix of [n] rows, [portfolio_returns] raises, and
    then [IndexError], exactly when there are fewer than [n] weights;
    weights past the [n]-th are never read. *)
Theorem portfolio_returns_index_error (R : ndarray Q) (w : list Q)
    (n m : nat) :
  ndarray_wf R -> shape R = (n, m) ->
  ((length w < n)%nat -> portfolio_returns R w = inl IndexError) /\
  ((n <= length w)%nat ->
   exists r, portfolio_returns R w = inr r /\ length r = m /\
             portfolio_returns R (firstn n w) = inr r).
Proof.
  intros Hwf Hshape. unfold portfolio_returns. rewrite Hshape. split.
  - intros Hlt.
    replace n with (length w + (n - length w))%nat at 1 by lia.
    rewrite seq_app, fold_left_app.
    destruct (portfolio_returns_loop_runs R w n m Hwf Hshape (length w)
                0%nat (repeat 0 m)) as [r [Hr _]];
      [lia | lia | apply repeat_length |].
    rewrite Hr. cbn [Nat.add].
    destruct (n - length w)%nat as [|k] eqn:Hk; [lia|].
    cbn [seq fold_left portfolio_returns_step].
    assert (Hnone : nth_error w (length w) = None)
      by (apply nth_error_None; lia).
    rewrite Hnone.
    destruct (nth_error (data R) (length w));
      apply portfolio_returns_step_error.
  - intros Hge.
    destruct (portfolio_returns_loop_runs R w n m Hwf Hshape n 0%nat
                (repeat 0 m)) as [r [Hr Hlen]];
      [lia | lia | apply repeat_length |].
    exists r. split; [exact Hr|]. split; [exact Hlen|].
    rewrite <- Hr. apply fold_left_ext_in. intros acc i Hi.
    apply in_seq in Hi. unfold portfolio_returns_step.
    destruct acc as [e|acc]; [reflexivity|].
    rewrite nth_error_firstn.
    assert (Hlt : Nat.ltb i n = true) by (apply Nat.ltb_lt; lia).
    now rewrite Hlt.
Qed.

Lemma portfolio_returns_index_error_witness :
  portfolio_returns (mk_ndarray (2%nat, 2%nat) [[1; 2]; [3; 4]]) [1]
  = inl IndexError.
Proof.
  apply (portfolio_returns_index_error
           (mk_ndarray (2%nat, 2%nat) [[1; 2]; [3; 4]]) [1] 2 2).
  - split; [reflexivity | repeat constructor].
  - reflexivity.
  - simpl. lia.
Defined.

(** The entries of [portfolio_returns], as sums over the assets. *)
Lemma portfolio_returns_entries (R : ndarray Q) (w : list Q) (n m : nat) :
  ndarray_wf R -> shape R = (n, m) -> length w = n ->
  exists r,
    portfolio_returns R w = inr r /\ length r = m /\
    forall j, (j < m)%nat ->
      nth j r 0 ==
      Qsum (map (fun i => nth i w 0 * nth j (nth i (data R) []) 0) (seq 0 n)).
Proof.
  intros Hwf Hshape Hw.
  destruct (portfolio_returns_loop R w n m Hwf Hshape Hw n 0%nat
              (repeat 0 m)) as [r [Hr [Hlen Hnth]]];
    [lia | apply repeat_length |].
  exists r. unfold portfolio_returns. rewrite Hshape.
  split; [exact Hr|]. split; [exact Hlen|].
  intros j Hj. rewrite (Hnth j Hj), nth_repeat. ring.
Qed.

Lemma Qsum_map_add {A : Type} (f g : A -> Q) (l : list A) :
  Qsum (map (fun x => f x + g x) l) == Qsum (map f l) + Qsum (map g l).
Proof.
  induction l as [|x l IH]; simpl; [ring | rewrite IH; ring].
Qed.

Lemma Qsum_map_scale {A : Type} (f : A -> Q) (c : Q) (l : list A) :
  Qsum (map (fun x => f x * c) l) == Qsum (map f l) * c.
Proof.
  induction l as [|x l IH]; simpl; [ring | rewrite IH; ring].
Qed.

(** X8: the returns of a portfolio are linear in its weights: for the
    weights [c1 w1 + c2 w2], [portfolio_returns] gives, date by date,
    [c1] times the returns for [w1] plus [c2] times the returns for
    [w2]. *)
Theorem portfolio_returns_linear (R : ndarray Q) (w1 w2 : list Q)
    (c1 c2 : Q) (n m : nat) :
  ndarray_wf R -> shape R = (n, m) -> length w1 = n -> length w2 = n ->
  exists r1 r2 r,
    portfolio_returns R w1 = inr r1 /\
    portfolio_returns R w2 = inr r2 /\
    portfolio_returns R (vadd (vscale w1 c1) (vscale w2 c2)) = inr r /\
    length r = m /\
    forall j, (j < m)%nat -> nth j r 0 == nth j r1 0 * c1 + nth j r2 0 * c2.
Proof.
  intros Hwf Hshape Hw1 Hw2.
  destruct (portfolio_returns_entries R w1 n m Hwf Hshape Hw1)
    as [r1 [Hr1 [_ He1]]].
  destruct (portfolio_returns_entries R w2 n m Hwf Hshape Hw2)
    as [r2 [Hr2 [_ He2]]].
  assert (Hw : length (vadd (vscale w1 c1) (vscale w2 c2)) = n).
  { rewrite length_vadd; unfold vscale; rewrite !length_map; congruence. }
  destruct (portfolio_returns_entries R _ n m Hwf Hshape Hw)
    as [r [Hr [Hlen He]]].
  exists r1, r2, r. repeat split; try assumption.
  intros j Hj. rewrite (He j Hj), (He1 j Hj), (He2 j Hj).
  rewrite <- !Qsum_map_scale, <- Qsum_map_add.
  apply Qsum_map_ext. intros i Hi. apply in_seq in Hi.
  rewrite nth_vadd, !nth_vscale; unfold vscale; rewrite ?length_map; try lia.
  ring.
Qed.

Lemma portfolio_returns_linear_witness :
  exists r,
    portfolio_returns (mk_ndarray (2%nat, 2%nat) [[1; 2]; [3; 4]])
                      (vadd (vscale [1; 0] (1 # 2)) (vscale [0; 1] (1 # 2)))
    = inr r /\ length r = 2%nat.
Proof.
  destruct (portfolio_returns_linear
              (mk_ndarray (2%nat, 2%nat) [[1; 2]; [3; 4]])
              [1; 0] [0; 1] (1 # 2) (1 # 2) 2 2)
    as [r1 [r2 [r [_ [_ [Hr [Hlen _]]]]]]].
  - split; [reflexivity | repeat constructor].
  - reflexivity.
  - reflexivity.
  - reflexivity.
  - exists r. now split.
Defined.

Lemma Qsum_indicator (f : nat -> Q) (i n s : nat) :
  Qsum (map (fun k => (if Nat.eqb k i then 1 else 0) * f k) (seq s n))
  == if Nat.leb s i && Nat.ltb i (s + n) then f i else 0.
Proof.
  revert s; induction n as [|n IH]; intros s.
  - simpl. replace (Nat.leb s i && Nat.ltb i (s + 0)) with false;
      [reflexivity|].
    symmetry. apply andb_false_iff.
    destruct (Nat.leb s i) eqn:E; [right | now left].
    apply Nat.leb_le in E. apply Nat.ltb_ge. lia.
  - cbn [seq map Qsum]. rewrite IH.
    destruct (Nat.eqb s i) eqn:E.
    + apply Nat.eqb_eq in E. subst s.
      assert (E1 : Nat.leb (S i) i = false) by (apply Nat.leb_gt; lia).
      assert (E2 : Nat.leb i i = true) by (apply Nat.leb_le; lia).
      assert (E3 : Nat.ltb i (i + S n) = true) by (apply Nat.ltb_lt; lia).
      rewrite E1, E2, E3. cbn [andb]. ring.
    + apply Nat.eqb_neq in E.
      replace (Nat.leb (S s) i && Nat.ltb i (S s + n))
        with (Nat.leb s i && Nat.ltb i (s + S n)); [ring|].
      destruct (Nat.leb s i) eqn:E1, (Nat.leb (S s) i) eqn:E2;
        rewrite ?Nat.leb_le, ?Nat.leb_gt in *; try lia; cbn [andb];
        try reflexivity.
      f_equal. lia.
Qed.

(** X9: a portfolio that holds one asset only, with weight 1, has the
    returns of that asset. *)
Theorem portfolio_returns_single_asset (R : ndarray Q) (n m i : nat) :
  ndarray_wf R -> shape R = (n, m) -> (i < n)%nat ->
  exists r,
    portfolio_returns R (one_hot n i) = inr r /\
    Forall2 Qeq r (nth i (data R) []).
Proof.
  intros Hwf Hshape Hi.
  assert (Hw : length (one_hot n i) = n)
    by (unfold one_hot; now rewrite length_map, length_seq).
  destruct (portfolio_returns_entries R _ n m Hwf Hshape Hw)
    as [r [Hr [Hlen He]]].
  exists r. split; [exact Hr|].
  destruct Hwf as [Hrows Hcols]. rewrite Hshape in Hrows, Hcols.
  cbn [fst snd] in Hrows, Hcols.
  assert (Hrow : length (nth i (data R) []) = m).
  { rewrite Forall_forall in Hcols. apply Hcols, nth_In. lia. }
  apply Forall2_by_index; [congruence|].
  intros j Hj. rewrite Hlen in Hj. rewrite (He j Hj).
  rewrite (Qsum_map_ext _
             (fun k => (if Nat.eqb k i then 1 else 0)
                       * nth j (nth k (data R) []) 0)).
  - rewrite Qsum_indicator.
    assert (E : Nat.leb 0 i && Nat.ltb i (0 + n) = true).
    { apply andb_true_iff. split; [apply Nat.leb_le | apply Nat.ltb_lt]; lia. }
    rewrite E. reflexivity.
  - intros k Hk. apply in_seq in Hk. unfold one_hot.
    rewrite nth_seq_map by lia. reflexivity.
Qed.

Lemma portfolio_returns_single_asset_witness :
  exists r,
    portfolio_returns (mk_ndarray (2%nat, 2%nat) [[1; 2]; [3; 4]])
                      (one_hot 2 1) = inr r /\
    Forall2 Qeq r [3; 4].
Proof.
  apply (portfolio_returns_single_asset
           (mk_ndarray (2%nat, 2%nat) [[1; 2]; [3; 4]]) 2 2 1).
  - split; [reflexivity | repeat constructor].
  - reflexivity.
  - lia.
Defined.

Lemma finite_row_full (xs : list Q) : finite_row (map (@Some Q) xs) = Some xs.
Proof. induction xs as [|x xs IH]; simpl; [reflexivity | now rewrite IH]. Qed.

Lemma map_nth_seq (l : list Q) :
  l = map (fun j => nth j l 0) (seq 0 (length l)).
Proof.
  induction l as [|x l IH]; simpl; [reflexivity|].
  f_equal. rewrite <- seq_shift, map_map. exact IH.
Qed.

Lemma Qsum_map_zero {A : Type} (l : list A) :
  Qsum (map (fun _ => 0) l) == 0.
Proof. induction l as [|x l IH]; simpl; [reflexivity | rewrite IH; ring]. Qed.

(** A double sum, in either order. *)
Lemma Qsum_swap {A B : Type} (f : A -> B -> Q) (la : list A) (lb : list B) :
  Qsum (map (fun b => Qsum (map (fun a => f a b) la)) lb)
  == Qsum (map (fun a => Qsum (map (fun b => f a b) lb)) la).
Proof.
  induction lb as [|b lb IH]; simpl.
  - now rewrite Qsum_map_zero.
  - now rewrite IH, <- Qsum_map_add.
Qed.

(** X10: the objective of the mean-risk programs is the mean return of the
    portfolio: for the finite returns [R] of the assets over at least one
    date, the sample mean of [portfolio_returns(R, w)] is the dot product
    of the weights with [Assets.mu], the means of the assets. *)
Theorem expected_return_is_mean_return (prices : DataFrame) (R : ndarray Q)
    (w : list Q) (n m : nat) :
  ndarray_wf R -> shape R = (n, m) -> (1 <= m)%nat -> length w = n ->
  data (returns prices) = map (map (@Some Q)) (data R) ->
  exists r mean mus,
    portfolio_returns R w = inr r /\
    np_mean r = Some mean /\
    mu prices = map (@Some Q) mus /\
    mean == dot w mus.
Proof.
  intros Hwf Hshape Hm Hw Hdata.
  destruct (portfolio_returns_entries R w n m Hwf Hshape Hw)
    as [r [Hr [Hlen He]]].
  destruct Hwf as [Hrows Hcols]. rewrite Hshape in Hrows, Hcols.
  cbn [fst snd] in Hrows, Hcols.
  assert (Hrow : forall i, (i < n)%nat -> length (nth i (data R) []) = m).
  { intros i Hi. rewrite Forall_forall in Hcols. apply Hcols, nth_In. lia. }
  set (M := inject_Z (Z.of_nat m)).
  assert (HM : ~ M == 0).
  { unfold M, Qeq. cbn [Qnum Qden inject_Z]. lia. }
  exists r, (Qsum r / M), (map (fun row => Qsum row / M) (data R)).
  split; [exact Hr|]. split; [|split].
  - destruct r as [|x r]; [simpl in Hlen; lia|].
    unfold np_mean, Qlen, M. now rewrite Hlen.
  - unfold mu. rewrite Hdata, !map_map. apply map_ext_in.
    intros row Hin. unfold np_mean_cells. rewrite finite_row_full.
    rewrite Forall_forall in Hcols. specialize (Hcols row Hin).
    destruct row as [|x row]; [simpl in Hcols; lia|].
    unfold np_mean, Qlen, M. now rewrite Hcols.
  - rewrite dot_by_index by (rewrite length_map; congruence).
    rewrite Hw.
    rewrite (map_nth_seq r) at 1. rewrite Hlen.
    rewrite (Qsum_map_ext _
               (fun j => Qsum (map (fun i => nth i w 0
                                             * nth j (nth i (data R) []) 0)
                                   (seq 0 n)))).
    2:{ intros j Hj. apply in_seq in Hj. apply He. lia. }
    rewrite (Qsum_swap (fun i j => nth i w 0 * nth j (nth i (data R) []) 0)).
    unfold Qdiv. rewrite <- Qsum_map_scale.
    apply Qsum_map_ext. intros i Hi. apply in_seq in Hi.
    rewrite (nth_map_in _ _ []) by lia.
    assert (Hq : Qsum (nth i (data R) [])
                 == Qsum (map (fun j => nth j (nth i (data R) []) 0)
                              (seq 0 m))).
    { rewrite <- (Hrow i) by lia. now rewrite <- map_nth_seq. }
    rewrite Hq.
    rewrite (Qsum_map_ext _ (fun j => nth j (nth i (data R) []) 0 * nth i w 0)).
    2:{ intros j _. ring. }
    rewrite Qsum_map_scale. ring.
Qed.

Lemma expected_return_is_mean_return_witness :
  let prices := price_table [1%Z; 2%Z; 3%Z] ["a"%string; "b"%string]
                            [[10; 20]; [11; 25]; [22; 20]] in
  exists r mean mus,
    portfolio_returns
      (mk_ndarray (2%nat, 2%nat)
                  [[11 / 10 - 1; 22 / 11 - 1]; [25 / 20 - 1; 20 / 25 - 1]])
      [1 # 2; 1 # 2] = inr r /\
    np_mean r = Some mean /\
    mu prices = map (@Some Q) mus /\
    mean == dot [1 # 2; 1 # 2] mus.
Proof.
  intros prices.
  apply (expected_return_is_mean_return prices
           (mk_ndarray (2%nat, 2%nat)
              [[11 / 10 - 1; 22 / 11 - 1]; [25 / 20 - 1; 20 / 25 - 1]])
           [1 # 2; 1 # 2] 2 2).
  - split; [reflexivity | repeat constructor].
  - reflexivity.
  - lia.
  - reflexivity.
  - reflexivity.
Defined.

(** ** prices_rebased and cum_returns: compounding *)

(** The list built by the loop of [prices_rebased], after [k] passes. *)
Lemma prices_rebased_loop (returns : list Q) (r0 : Q) (k : nat) :
  let p := fold_left (fun p i => p ++ [last p 0 * (1 + nth i returns 0)])
                     (seq 1 k) [1 + r0] in
  length p = S k /\
  last p 0 = nth k p 0 /\
  nth 0 p 0 = 1 + r0 /\
  forall i, (i < k)%nat ->
    nth (S i) p 0 = nth i p 0 * (1 + nth (S i) returns 0).
Proof.
  induction k as [|k IH]; cbn zeta.
  - cbn. repeat split. intros i Hi. lia.
  - rewrite seq_S, fold_left_app. cbn [fold_left Nat.add].
    cbn zeta in IH. destruct IH as [Hlen [Hlast [H0 Hrec]]].
    set (p := fold_left (fun p i => p ++ [last p 0 * (1 + nth i returns 0)])
                        (seq 1 k) [1 + r0]) in *.
    split; [rewrite length_app, Hlen; simpl; lia|].
    split; [|split].
    + rewrite last_last, app_nth2 by lia.
      rewrite Hlen, Nat.sub_diag. reflexivity.
    + rewrite app_nth1 by lia. exact H0.
    + intros i Hi. destruct (Nat.eq_dec i k) as [->|Hne].
      * rewrite app_nth2 by lia. rewrite Hlen, Nat.sub_diag. cbn [nth].
        rewrite app_nth1 by lia. now rewrite Hlast.
      * rewrite !app_nth1 by lia. apply Hrec. lia.
Qed.

Lemma Qprod_app (l : list Q) (x : Q) : Qprod (l ++ [x]) == Qprod l * x.
Proof. induction l as [|y l IH]; simpl; [ring | rewrite IH; ring]. Qed.

Lemma firstn_succ_nth (l : list Q) (i : nat) :
  (i < length l)%nat -> firstn (S i) l = firstn i l ++ [nth i l 0].
Proof.
  revert i; induction l as [|x l IH]; intros i Hi; simpl in Hi; [lia|].
  destruct i as [|i]; [reflexivity|].
  cbn [firstn nth app]. f_equal. apply IH. lia.
Qed.

(** X11: [prices_rebased] raises [IndexError] on an empty array of
    returns; otherwise it returns as many prices as there are returns, and
    price [i] is the compounded growth up to [i]: the product of the
    [1 + returns[k]] for [k <= i]. *)
Theorem prices_rebased_compounds (returns : list Q) :
  (returns = [] -> prices_rebased returns = inl IndexError) /\
  (returns <> [] ->
   exists p,
     prices_rebased returns = inr p /\
     length p = length returns /\
     forall i, (i < length returns)%nat ->
       nth i p 0 == Qprod (map (fun r => 1 + r) (firstn (S i) returns))).
Proof.
  split; [intros ->; reflexivity|].
  intros Hne. destruct returns as [|r0 rest]; [contradiction|].
  unfold prices_rebased.
  pose proof (prices_rebased_loop (r0 :: rest) r0 (length (r0 :: rest) - 1))
    as H. cbn zeta in H. destruct H as [Hlen [_ [H0 Hrec]]].
  eexists. split; [reflexivity|]. split.
  - rewrite Hlen. simpl. lia.
  - induction i as [|i IHi]; intros Hi.
    + rewrite H0. simpl. ring.
    + rewrite Hrec by (simpl in *; lia).
      rewrite IHi by lia.
      rewrite (firstn_succ_nth (r0 :: rest) (S i)) by exact Hi.
      rewrite map_app. cbn [map]. rewrite Qprod_app. reflexivity.
Qed.

Lemma prices_rebased_compounds_witness :
  exists p,
    prices_rebased [1 # 10; 1 # 5] = inr p /\
    nth 1 p 0 == (1 + (1 # 10)) * ((1 + (1 # 5)) * 1).
Proof.
  destruct (proj2 (prices_rebased_compounds [1 # 10; 1 # 5]))
    as [p [Hp [_ Hnth]]]; [discriminate|].
  exists p. split; [exact Hp|]. apply (Hnth 1%nat). simpl. lia.
Defined.

Lemma pct_change_tail_length (dates : list date) (names : list string)
    (P : list (list Q)) :
  Forall (fun row => length row = length names) P ->
  length (values (df_tail (pct_change (price_table dates names P))))
  = (length P - 1)%nat.
Proof.
  intros Hwf. unfold df_tail, pct_change, shift1, ffill, price_table.
  cbn [values columns index index_is_datetime].
  rewrite (ffill_rows_full (length names)); [|assumption|apply repeat_length].
  destruct P as [|p0 P]; [reflexivity|].
  cbn [map combine tl]. rewrite combine_removelast by reflexivity.
  rewrite length_map, length_combine. cbn [length].
  rewrite !length_map. lia.
Qed.

(** [pct_change()[1:]] on a table without missing values and with non-zero
    prices: the simple returns, date by date. *)
Lemma pct_change_tail_full (dates : list date) (names : list string)
    (P : list (list Q)) (d n : nat) :
  length names = n -> length P = d ->
  Forall (fun row => length row = n) P ->
  (forall j i, (j < d)%nat -> (i < n)%nat -> ~ nth i (nth j P []) 0 == 0) ->
  values (df_tail (pct_change (price_table dates names P)))
  = map (fun j => map (fun i => Some (simple_return P j i)) (seq 0 n))
        (seq 0 (d - 1)).
Proof.
  intros Hnames HP Hwf Hnz.
  assert (Hwf' : Forall (fun row => length row = length names) P)
    by now rewrite Hnames.
  assert (Hlen : forall k, (k < d)%nat -> length (nth k P []) = n).
  { intros k Hk. rewrite Forall_forall in Hwf. apply Hwf, nth_In. lia. }
  apply (nth_ext _ _ [] []).
  - rewrite pct_change_tail_length by assumption.
    now rewrite length_map, length_seq, HP.
  - intros j Hj. rewrite pct_change_tail_length in Hj by assumption.
    rewrite HP in Hj.
    rewrite pct_change_tail_nth by (assumption || lia).
    rewrite nth_seq_map by lia.
    apply (nth_ext _ _ None None).
    + rewrite !length_map, length_combine, !length_map, !Hlen by lia.
      rewrite length_seq. lia.
    + intros i Hi.
      rewrite length_map, length_combine, !length_map, !Hlen in Hi by lia.
      assert (Hi' : (i < n)%nat) by lia.
      rewrite (nth_map_in _ _ (None, None))
        by (rewrite length_combine, !length_map, !Hlen by lia; lia).
      rewrite nth_combine by (rewrite length_map, Hlen; lia).
      cbn [fst snd].
      rewrite !(nth_map_in (@Some Q) _ 0) by (rewrite Hlen; lia).
      rewrite nth_seq_map by lia.
      unfold cell_div, cell_sub, simple_return.
      destruct (Qeq_bool (nth i (nth j P []) 0) 0) eqn:E; [|reflexivity].
      apply Qeq_bool_iff in E. exfalso.
      apply (Hnz j i); [lia | assumption | exact E].
Qed.

(** The returns of asset [i], as a row of [Assets.returns]. *)
Lemma returns_row_full (dates : list date) (names : list string)
    (P : list (list Q)) (d n i : nat) :
  length names = n -> length P = d ->
  Forall (fun row => length row = n) P ->
  (forall j i, (j < d)%nat -> (i < n)%nat -> ~ nth i (nth j P []) 0 == 0) ->
  (i < n)%nat ->
  nth i (data (returns (price_table dates names P))) []
  = map (@Some Q) (map (fun j => simple_return P j i) (seq 0 (d - 1))).
Proof.
  intros Hnames HP Hwf Hnz Hi.
  unfold returns, transpose, to_numpy. cbn [data shape df_shape snd fst].
  replace (length (columns (df_tail (pct_change (price_table dates names P)))))
    with n by (cbn; now rewrite Hnames).
  rewrite nth_seq_map by assumption. unfold column.
  rewrite (pct_change_tail_full dates names P d n) by assumption.
  rewrite !map_map. apply map_ext. intros j.
  now rewrite nth_seq_map.
Qed.

(** The products of consecutive growth factors telescope. *)
Lemma simple_return_growth (P : list (list Q)) (j i : nat) :
  ~ nth i (nth j P []) 0 == 0 ->
  1 + simple_return P j i == nth i (nth (S j) P []) 0 / nth i (nth j P []) 0.
Proof. intros H. unfold simple_return. field. exact H. Qed.

Lemma prices_rebased_recurrence (rs : list Q) :
  rs <> [] ->
  exists p,
    prices_rebased rs = inr p /\ length p = length rs /\
    nth 0 p 0 = 1 + nth 0 rs 0 /\
    forall i, (S i < length rs)%nat ->
      nth (S i) p 0 = nth i p 0 * (1 + nth (S i) rs 0).
Proof.
  intros Hne. destruct rs as [|r0 rest]; [contradiction|].
  unfold prices_rebased.
  pose proof (prices_rebased_loop (r0 :: rest) r0 (length (r0 :: rest) - 1))
    as H. cbn zeta in H. destruct H as [Hlen [_ [H0 Hrec]]].
  eexists. split; [reflexivity|]. split; [rewrite Hlen; simpl; lia|].
  split; [exact H0|]. intros i Hi. apply Hrec. simpl in *. lia.
Qed.

(** X12: rebasing undoes the returns: for a price table without missing
    values and with non-zero prices over at least two dates,
    [prices_rebased] of the returns of asset [i] ([Assets.returns]) gives
    back the prices of the asset from the second date on, divided by its
    first price. *)
Theorem prices_rebased_of_returns (dates : list date) (names : list string)
    (P : list (list Q)) (d n i : nat) :
  length names = n -> length P = d ->
  Forall (fun row => length row = n) P ->
  (forall j i, (j < d)%nat -> (i < n)%nat -> ~ nth i (nth j P []) 0 == 0) ->
  (2 <= d)%nat -> (i < n)%nat ->
  exists r p,
    nth i (data (returns (price_table dates names P))) [] = map (@Some Q) r /\
    prices_rebased r = inr p /\
    length p = (d - 1)%nat /\
    forall j, (j < d - 1)%nat ->
      nth j p 0 == nth i (nth (S j) P []) 0 / nth i (nth 0 P []) 0.
Proof.
  intros Hnames HP Hwf Hnz Hd Hi.
  set (r := map (fun j => simple_return P j i) (seq 0 (d - 1))).
  assert (Hr : length r = (d - 1)%nat)
    by (unfold r; now rewrite length_map, length_seq).
  assert (Hne : r <> []).
  { intros E. rewrite E in Hr. simpl in Hr. lia. }
  destruct (prices_rebased_recurrence r Hne) as [p [Hp [Hlen [H0 Hrec]]]].
  exists r, p. split; [now apply (returns_row_full dates names P d n i)|].
  split; [exact Hp|]. split; [congruence|].
  assert (Hrn : forall j, (j < d - 1)%nat -> nth j r 0 = simple_return P j i).
  { intros j Hj. unfold r. now rewrite nth_seq_map. }
  induction j as [|j IHj]; intros Hj.
  - rewrite H0, Hrn by lia. apply simple_return_growth. apply Hnz; lia.
  - rewrite Hrec by lia. rewrite IHj by lia. rewrite Hrn by lia.
    rewrite simple_return_growth by (apply Hnz; lia).
    field. split; apply Hnz; lia.
Qed.

Lemma prices_rebased_of_returns_witness :
  exists r p,
    nth 0 (data (returns (price_table [1%Z; 2%Z; 3%Z]
                            ["a"%string; "b"%string]
                            [[10; 20]; [11; 25]; [22; 20]]))) []
    = map (@Some Q) r /\
    prices_rebased r = inr p /\
    nth 1 p 0 == 22 / 10.
Proof.
  destruct (prices_rebased_of_returns [1%Z; 2%Z; 3%Z]
              ["a"%string; "b"%string]
              [[10; 20]; [11; 25]; [22; 20]] 3 2 0
              eq_refl eq_refl) as [r [p [Hr [Hp [_ Hnth]]]]].
  - repeat constructor.
  - intros [|[|[|j]]] [|[|i]] Hj Hi; try lia; vm_compute; discriminate.
  - lia.
  - lia.
  - exists r, p. split; [exact Hr|]. split; [exact Hp|].
    apply (Hnth 1%nat). lia.
Defined.

(** [cumprod] down rows without missing cells: cell [(j, i)] is the product
    of the column up to row [j], times what was accumulated before. *)
Lemma cumprod_rows_full (g : nat -> nat -> Q) (n : nat) :
  forall k s acc j i,
    length acc = n -> (j < k)%nat -> (i < n)%nat ->
    exists c,
      nth i (nth j (cumprod_rows acc
                      (map (fun j => map (fun i => Some (g j i)) (seq 0 n))
                           (seq s k))) []) None = Some c /\
      c == match nth i acc None with None => 1 | Some a => a end
           * Qprod (map (fun j' => g j' i) (seq s (S j))).
Proof.
  induction k as [|k IH]; intros s acc j i Hacc Hj Hi; [lia|].
  cbn [seq map cumprod_rows].
  assert (Hrow : length (map (fun i => Some (g s i)) (seq 0 n)) = n)
    by now rewrite length_map, length_seq.
  destruct j as [|j].
  - cbn [nth].
    rewrite (nth_map_in _ _ (None, None))
      by (rewrite length_combine, Hrow; lia).
    rewrite nth_combine by lia. cbn [fst snd].
    rewrite nth_seq_map by lia. cbn [cumprod_cell seq map Qprod].
    eexists. split; [reflexivity|].
    destruct (nth i acc None); ring.
  - cbn [nth].
    destruct (IH (S s)
                (map (fun ac : cell * cell => cumprod_next (fst ac) (snd ac))
                     (combine acc (map (fun i => Some (g s i)) (seq 0 n))))
                j i) as [c [Hc Hval]]; [|lia|lia|].
    + rewrite length_map, length_combine, Hrow. lia.
    + exists c. split; [exact Hc|]. rewrite Hval.
      rewrite (nth_map_in _ _ (None, None))
        by (rewrite length_combine, Hrow; lia).
      rewrite nth_combine by lia. cbn [fst snd].
      rewrite nth_seq_map by lia. cbn [cumprod_next cumprod_cell].
      change (seq s (S (S j))) with (s :: seq (S s) (S j)).
      cbn [map Qprod]. destruct (nth i acc None); ring.
Qed.

Lemma Qprod_telescope (P : list (list Q)) (i j : nat) :
  (forall k, (k <= j)%nat -> ~ nth i (nth k P []) 0 == 0) ->
  Qprod (map (fun k => simple_return P k i + 1) (seq 0 (S j)))
  == nth i (nth (S j) P []) 0 / nth i (nth 0 P []) 0.
Proof.
  induction j as [|j IH]; intros Hnz.
  - cbn [seq map Qprod]. unfold simple_return. field. apply Hnz. lia.
  - rewrite seq_S, map_app. cbn [map Nat.add]. rewrite Qprod_app.
    rewrite IH by (intros k Hk; apply Hnz; lia).
    unfold simple_return. field. split; apply Hnz; lia.
Qed.

(** X13: [Assets.cum_returns] rebases the prices to 1: for a price table
    without missing values and with non-zero prices, its cell for date
    [j + 1] and asset [i] is the price of the asset at that date divided by
    its first price. *)
Theorem cum_returns_rebases (dates : list date) (names : list string)
    (P : list (list Q)) (d n j i : nat) :
  length names = n -> length P = d ->
  Forall (fun row => length row = n) P ->
  (forall j i, (j < d)%nat -> (i < n)%nat -> ~ nth i (nth j P []) 0 == 0) ->
  (j < d - 1)%nat -> (i < n)%nat ->
  exists c,
    nth i (nth j (values (cum_returns (price_table dates names P))) []) None
    = Some c /\
    c == nth i (nth (S j) P []) 0 / nth i (nth 0 P []) 0.
Proof.
  intros Hnames HP Hwf Hnz Hj Hi.
  unfold cum_returns, cumprod, df_add_scalar.
  cbn [values columns index index_is_datetime].
  rewrite (pct_change_tail_full dates names P d n) by assumption.
  replace (length (columns (df_tail (pct_change (price_table dates names P)))))
    with n by (cbn; now rewrite Hnames).
  rewrite map_map.
  rewrite (map_ext _ (fun j => map (fun i => Some (simple_return P j i + 1))
                                   (seq 0 n)))
    by (intros k; now rewrite map_map).
  destruct (cumprod_rows_full (fun j i => simple_return P j i + 1) n
              (d - 1) 0 (repeat None n) j i) as [c [Hc Hval]];
    [apply repeat_length | lia | lia |].
  exists c. split; [exact Hc|].
  rewrite Hval, nth_repeat, Qprod_telescope.
  - ring.
  - intros k Hk. apply Hnz; lia.
Qed.

Lemma cum_returns_rebases_witness :
  exists c,
    nth 0 (nth 1 (values (cum_returns
                            (price_table [1%Z; 2%Z; 3%Z]
                               ["a"%string; "b"%string]
                               [[10; 20]; [11; 25]; [22; 20]]))) []) None
    = Some c /\
    c == 22 / 10.
Proof.
  apply (cum_returns_rebases [1%Z; 2%Z; 3%Z] ["a"%string; "b"%string]
           [[10; 20]; [11; 25]; [22; 20]] 3 2 1 0 eq_refl eq_refl).
  - repeat constructor.
  - intros [|[|[|j]]] [|[|i]] Hj Hi; try lia; vm_compute; discriminate.
  - lia.
  - lia.
Defined.

(** ** Assets: preprocessing and returns at the edges *)

Lemma select_all {A : Type} (keep : list bool) (l : list A) :
  Forall (fun b => b = true) keep -> length keep = length l ->
  select keep l = l.
Proof.
  revert l; induction keep as [|k keep IH]; intros [|x l] Hall Hlen;
    simpl in *; try discriminate; [reflexivity|].
  inversion Hall; subst. f_equal. apply IH; [assumption | now injection Hlen].
Qed.

Lemma count_nan_full (row : list Q) : count_nan (map (@Some Q) row) = 0%nat.
Proof.
  unfold count_nan. induction row as [|x row IH]; simpl; [reflexivity | exact IH].
Qed.

Lemma above_threshold_zero (size : nat) (threshold : Q) :
  0 <= threshold -> above_threshold size threshold 0 = false.
Proof.
  intros H. unfold above_threshold, Qgtb. apply Qltb_false_iff.
  assert (0 <= inject_Z (Z.of_nat size)).
  { change 0 with (inject_Z 0). rewrite <- Zle_Qle. lia. }
  change (inject_Z (Z.of_nat 0)) with 0. now apply Qmult_le_0_compat.
Qed.

(** X14: preprocessing leaves a complete table as it is: with thresholds
    inside (0, 1), [_preprocessing] on a price table without missing
    values drops no asset and no date and fills nothing. *)
Theorem preprocessing_keeps_complete_table (a d : Q) (dates : list date)
    (names : list string) (P : list (list Q)) :
  0 < a -> a < 1 -> 0 < d -> d < 1 ->
  length dates = length P ->
  Forall (fun row => length row = length names) P ->
  _preprocessing (Some a) (Some d) (price_table dates names P)
  = inr (price_table dates names P).
Proof.
  intros Ha0 Ha1 Hd0 Hd1 Hdates Hwf. unfold _preprocessing.
  assert (Ea : Qltb 0 a && Qltb a 1 = true)
    by (apply andb_true_iff; now rewrite !Qltb_iff).
  assert (Ed : Qltb 0 d && Qltb d 1 = true)
    by (apply andb_true_iff; now rewrite !Qltb_iff).
  rewrite Ea, Ed. cbn [negb]. f_equal.
  unfold clean_prices, df_shape, price_table.
  cbn [index columns values index_is_datetime].
  set (n := length names). set (X := map (map (@Some Q)) P).
  assert (Hcols : map (fun c => negb (above_threshold (length dates) d c))
                      (isna_sum_axis0 (mk_DataFrame true dates names X))
                  = repeat true n).
  { unfold isna_sum_axis0. cbn [columns values]. rewrite map_map.
    fold n. rewrite <- (length_seq n 0) at 2. rewrite <- map_const.
    apply map_ext_in. intros j Hj. apply in_seq in Hj.
    assert (Hc : count_nan (column None j X) = 0%nat).
    { unfold column, X. rewrite map_map. unfold count_nan.
      clear Hdates. induction Hwf as [|row P' Hrow _ IH]; [reflexivity|].
      cbn [map filter]. rewrite (nth_map_in _ _ 0) by (fold n in Hrow; lia).
      cbn [isna]. exact IH. }
    rewrite Hc, above_threshold_zero by lra. reflexivity. }
  rewrite Hcols. unfold drop_columns.
  cbn [index columns values index_is_datetime].
  assert (Hrep : Forall (fun b => b = true) (repeat true n))
    by (apply Forall_forall; intros b Hb; now apply repeat_spec in Hb).
  rewrite (select_all (repeat true n) names Hrep)
    by (now rewrite repeat_length).
  assert (HX : map (select (repeat true n)) X = X).
  { unfold X. rewrite map_map. apply map_ext_in. intros row Hin.
    apply select_all; [exact Hrep|].
    rewrite repeat_length, length_map. rewrite Forall_forall in Hwf.
    symmetry. now apply Hwf. }
  rewrite HX.
  assert (Hrows : map (fun c => negb (above_threshold n a c))
                      (isna_sum_axis1 (mk_DataFrame true dates names X))
                  = repeat true (length P)).
  { unfold isna_sum_axis1, X. cbn [values]. rewrite !map_map.
    rewrite <- map_const. apply map_ext. intros row.
    rewrite count_nan_full, above_threshold_zero by lra. reflexivity. }
  rewrite Hrows. unfold drop_rows.
  cbn [index columns values index_is_datetime].
  assert (Hrep' : Forall (fun b => b = true) (repeat true (length P)))
    by (apply Forall_forall; intros b Hb; now apply repeat_spec in Hb).
  rewrite (select_all _ dates Hrep') by (now rewrite repeat_length).
  rewrite (select_all _ X Hrep')
    by (unfold X; now rewrite repeat_length, length_map).
  unfold bfill, ffill. cbn [index columns values index_is_datetime].
  fold n. unfold X.
  rewrite (ffill_rows_full n); [|assumption|apply repeat_length].
  rewrite <- map_rev.
  rewrite (ffill_rows_full n);
    [|now apply Forall_rev|apply repeat_length].
  now rewrite map_rev, rev_involutive.
Qed.

Lemma preprocessing_keeps_complete_table_witness :
  _preprocessing (Some (1 # 10)) (Some (1 # 10))
                 (price_table [1%Z; 2%Z] ["a"%string] [[10]; [11]])
  = inr (price_table [1%Z; 2%Z] ["a"%string] [[10]; [11]]).
Proof.
  apply (preprocessing_keeps_complete_table (1 # 10) (1 # 10)
           [1%Z; 2%Z] ["a"%string] [[10]; [11]]);
    try reflexivity.
  repeat constructor.
Defined.

(** A cell of [Assets.returns] on a table without missing values, zero
    prices included. *)
Lemma returns_cell (dates : list date) (names : list string)
    (P : list (list Q)) (d n i j : nat) :
  length names = n -> length P = d ->
  Forall (fun row => length row = n) P ->
  (i < n)%nat -> (j < d - 1)%nat ->
  nth j (nth i (data (returns (price_table dates names P))) []) None
  = cell_sub (cell_div (Some (nth i (nth (S j) P []) 0))
                       (Some (nth i (nth j P []) 0))) 1.
Proof.
  intros Hnames HP Hwf Hi Hj.
  assert (Hwf' : Forall (fun row => length row = length names) P)
    by now rewrite Hnames.
  assert (Hlen : forall k, (k < d)%nat -> length (nth k P []) = n).
  { intros k Hk. rewrite Forall_forall in Hwf. apply Hwf, nth_In. lia. }
  unfold returns, transpose, to_numpy. cbn [data shape df_shape snd fst].
  replace (length (columns (df_tail (pct_change (price_table dates names P)))))
    with n by (cbn; now rewrite Hnames).
  rewrite nth_seq_map by assumption. unfold column.
  rewrite (nth_map_in _ _ [])
    by (rewrite pct_change_tail_length by assumption; lia).
  rewrite pct_change_tail_nth by (assumption || lia).
  rewrite (nth_map_in _ _ (None, None))
    by (rewrite length_combine, !length_map, !Hlen by lia; lia).
  rewrite nth_combine by (rewrite length_map, Hlen; lia).
  cbn [fst snd].
  now rewrite !(nth_map_in (@Some Q) _ 0) by (rewrite Hlen; lia).
Qed.

(** X15: on a price table without missing values, the return of an asset
    between two dates is not a finite number exactly when its price at the
    earlier date is zero; a zero price at the later date gives the return
    -1. *)
Theorem returns_zero_price (dates : list date) (names : list string)
    (P : list (list Q)) (d n i j : nat) :
  length names = n -> length P = d ->
  Forall (fun row => length row = n) P ->
  (i < n)%nat -> (j < d - 1)%nat ->
  let r := nth j (nth i (data (returns (price_table dates names P))) [])
               None in
  (r = None <-> nth i (nth j P []) 0 == 0) /\
  (~ nth i (nth j P []) 0 == 0 -> nth i (nth (S j) P []) 0 == 0 ->
   cell_eq r (Some (- (1)))).
Proof.
  intros Hnames HP Hwf Hi Hj r. unfold r.
  rewrite (returns_cell dates names P d n i j) by assumption.
  unfold cell_div, cell_sub.
  destruct (Qeq_bool (nth i (nth j P []) 0) 0) eqn:E.
  - apply Qeq_bool_iff in E. split; [tauto | contradiction].
  - assert (Hnz : ~ nth i (nth j P []) 0 == 0).
    { intros H. apply Qeq_bool_iff in H. congruence. }
    split; [split; [discriminate | contradiction]|].
    intros _ Hz. cbn [cell_eq]. rewrite Hz. field. exact Hnz.
Qed.

Lemma returns_zero_price_witness :
  nth 0 (nth 0 (data (returns (price_table [1%Z; 2%Z] ["a"%string]
                                           [[0]; [11]]))) []) None = None.
Proof.
  apply (returns_zero_price [1%Z; 2%Z] ["a"%string] [[0]; [11]] 2 1 0 0
           eq_refl eq_refl); try lia; [repeat constructor | reflexivity].
Defined.

(** The prices of each asset multiplied by a factor of its own. *)
Lemma nth_rescaled (cs : list Q) (P : list (list Q)) (d n j i : nat) :
  length cs = n -> length P = d ->
  Forall (fun row => length row = n) P ->
  (j < d)%nat -> (i < n)%nat ->
  nth i (nth j (map (fun row => map (fun cp => fst cp * snd cp)
                                    (combine cs row)) P) []) 0
  = nth i cs 0 * nth i (nth j P []) 0.
Proof.
  intros Hcs HP Hwf Hj Hi.
  assert (Hlen : length (nth j P []) = n).
  { rewrite Forall_forall in Hwf. apply Hwf, nth_In. lia. }
  rewrite (nth_map_in _ _ []) by lia.
  rewrite (nth_map_in _ _ (0, 0)) by (rewrite length_combine; lia).
  now rewrite nth_combine by lia.
Qed.

(** X16: the returns do not depend on the unit of the prices: multiplying
    all the prices of each asset by a non-zero factor of its own leaves
    every cell of [Assets.returns] the same number. *)
Theorem returns_scale_invariant (dates : list date) (names : list string)
    (cs : list Q) (P : list (list Q)) (d n i j : nat) :
  length names = n -> length P = d -> length cs = n ->
  Forall (fun row => length row = n) P ->
  Forall (fun c => ~ c == 0) cs ->
  (i < n)%nat -> (j < d - 1)%nat ->
  let P' := map (fun row => map (fun cp => fst cp * snd cp) (combine cs row))
                P in
  cell_eq
    (nth j (nth i (data (returns (price_table dates names P'))) []) None)
    (nth j (nth i (data (returns (price_table dates names P))) []) None).
Proof.
  intros Hnames HP Hcs Hwf Hnz Hi Hj P'.
  assert (Hwf' : Forall (fun row => length row = n) P').
  { unfold P'. apply Forall_forall. intros row Hin.
    apply in_map_iff in Hin. destruct Hin as [row0 [<- Hin0]].
    rewrite length_map, length_combine. rewrite Forall_forall in Hwf.
    rewrite (Hwf row0 Hin0). lia. }
  assert (HP' : length P' = d) by (unfold P'; now rewrite length_map).
  rewrite (returns_cell dates names P' d n i j) by assumption.
  rewrite (returns_cell dates names P d n i j) by assumption.
  unfold P'. rewrite !(nth_rescaled cs P d n) by (assumption || lia).
  assert (Hc : ~ nth i cs 0 == 0).
  { rewrite Forall_forall in Hnz. apply Hnz, nth_In. lia. }
  set (c := nth i cs 0) in *. set (x := nth i (nth j P []) 0).
  set (y := nth i (nth (S j) P []) 0).
  unfold cell_div, cell_sub.
  destruct (Qeq_bool x 0) eqn:Ex.
  - apply Qeq_bool_iff in Ex.
    assert (E : Qeq_bool (c * x) 0 = true)
      by (apply Qeq_bool_iff; rewrite Ex; ring).
    rewrite E. exact I.
  - assert (Hx : ~ x == 0) by (intros H; apply Qeq_bool_iff in H; congruence).
    assert (E : Qeq_bool (c * x) 0 = false).
    { apply not_true_iff_false. intros H. apply Qeq_bool_iff in H.
      apply Qmult_integral in H. tauto. }
    rewrite E. cbn [cell_eq]. field. split; assumption.
Qed.

Lemma returns_scale_invariant_witness :
  cell_eq
    (nth 0 (nth 0 (data (returns (price_table [1%Z; 2%Z] ["a"%string]
                                    (map (fun row =>
                                            map (fun cp => fst cp * snd cp)
                                                (combine [100] row))
                                         [[10]; [11]])))) []) None)
    (nth 0 (nth 0 (data (returns (price_table [1%Z; 2%Z] ["a"%string]
                                    [[10]; [11]]))) []) None).
Proof.
  apply (returns_scale_invariant [1%Z; 2%Z] ["a"%string] [100]
           [[10]; [11]] 2 1 0 0 eq_refl eq_refl eq_refl); try lia.
  - repeat constructor.
  - constructor; [|constructor]. intros H. vm_compute in H. discriminate.
Defined.

(** ** Assets: forward and backward fills *)

Lemma Forall2_rev_both {A B : Type} (R : A -> B -> Prop) (l : list A)
    (l' : list B) :
  Forall2 R l l' -> Forall2 R (rev l) (rev l').
Proof.
  induction 1 as [|x y l l' Hxy _ IH]; simpl; [constructor|].
  apply Forall2_app; [exact IH | now repeat constructor].
Qed.

Lemma Forall2_keeps_trans (X Y Z : list (list cell)) :
  Forall2 (Forall2 keeps) X Y -> Forall2 (Forall2 keeps) Y Z ->
  Forall2 (Forall2 keeps) X Z.
Proof.
  intros H; revert Z; induction H as [|x y X Y Hxy _ IH]; intros Z HZ;
    inversion HZ; subst; constructor.
  - clear - Hxy H1. revert y0 H1.
    induction Hxy as [|a b x y Hab _ IHr]; intros z Hz; inversion Hz; subst;
      constructor; [|now apply IHr].
    intros v Hv. apply H1. now apply Hab.
  - now apply IH.
Qed.

Lemma fill_row_keeps (prev row : list cell) :
  length prev = length row ->
  Forall2 keeps row (map (fun pc => fill_cell (fst pc) (snd pc))
                         (combine prev row)).
Proof.
  revert prev; induction row as [|c row IH]; intros [|p prev] Hlen;
    simpl in *; try discriminate; constructor.
  - intros x ->. reflexivity.
  - apply IH. now injection Hlen.
Qed.

Lemma fill_row_length (prev row : list cell) :
  length prev = length row ->
  length (map (fun pc => fill_cell (fst pc) (snd pc)) (combine prev row))
  = length row.
Proof. intros H. rewrite length_map, length_combine. lia. Qed.

Lemma fill_row_nth (prev row : list cell) (j : nat) :
  length prev = length row -> (j < length row)%nat ->
  nth j (map (fun pc => fill_cell (fst pc) (snd pc)) (combine prev row)) None
  = fill_cell (nth j prev None) (nth j row None).
Proof.
  intros Hlen Hj.
  rewrite (nth_map_in _ _ (None, None)) by (rewrite length_combine; lia).
  now rewrite nth_combine by lia.
Qed.

Lemma ffill_rows_keeps (n : nat) (rows : list (list cell)) :
  Forall (fun row => length row = n) rows ->
  forall prev, length prev = n ->
    Forall2 (Forall2 keeps) rows (ffill_rows prev rows) /\
    Forall (fun row => length row = n) (ffill_rows prev rows).
Proof.
  induction 1 as [|row rows Hrow _ IH]; intros prev Hprev; cbn [ffill_rows].
  - split; constructor.
  - cbv zeta.
    assert (Hlen : length (map (fun pc : cell * cell =>
                                  fill_cell (fst pc) (snd pc))
                               (combine prev row)) = n)
      by (rewrite fill_row_length; congruence).
    destruct (IH _ Hlen) as [IH1 IH2]. split; constructor; try assumption.
    apply fill_row_keeps. congruence.
Qed.

(** X17: the fills of the preprocessing never change a price that is
    there: after [fillna(method='ffill')] then [fillna(method='bfill')]
    the table has the same dates and assets, and every cell that held a
    price holds the same price. *)
Theorem fills_keep_prices (df : DataFrame) :
  DataFrame_wf df ->
  index (bfill (ffill df)) = index df /\
  columns (bfill (ffill df)) = columns df /\
  Forall2 (Forall2 keeps) (values df) (values (bfill (ffill df))).
Proof.
  intros [_ Hwf]. split; [reflexivity|]. split; [reflexivity|].
  unfold bfill, ffill. cbn [values columns index index_is_datetime].
  set (n := length (columns df)) in *.
  destruct (ffill_rows_keeps n (values df) Hwf (repeat None n)
              (repeat_length _ _)) as [H1 H2].
  apply (Forall2_keeps_trans _ (ffill_rows (repeat None n) (values df)));
    [exact H1|].
  set (Y := ffill_rows (repeat None n) (values df)) in *.
  destruct (ffill_rows_keeps n (rev Y) (Forall_rev H2) (repeat None n)
              (repeat_length _ _)) as [H3 _].
  apply Forall2_rev_both in H3. now rewrite rev_involutive in H3.
Qed.

Lemma fills_keep_prices_witness :
  Forall2 (Forall2 keeps) [[None; Some 2]; [Some 1; None]]
    (values (bfill (ffill (mk_DataFrame true [1%Z; 2%Z]
                             ["a"%string; "b"%string]
                             [[None; Some 2]; [Some 1; None]])))).
Proof.
  apply (fills_keep_prices (mk_DataFrame true [1%Z; 2%Z]
                              ["a"%string; "b"%string]
                              [[None; Some 2]; [Some 1; None]])).
  split; [reflexivity | repeat constructor].
Defined.

(** A column that holds a price in the row above holds one in every row of
    the forward fill. *)
Lemma ffill_rows_from_prev (n j : nat) (rows : list (list cell)) :
  Forall (fun row => length row = n) rows -> (j < n)%nat ->
  forall prev, length prev = n -> present j prev ->
    Forall (present j) (ffill_rows prev rows).
Proof.
  intros Hwf Hj. induction Hwf as [|row rows Hrow _ IH]; intros prev Hprev Hp;
    cbn [ffill_rows]; [constructor|].
  cbv zeta.
  assert (Hnew : present j (map (fun pc : cell * cell =>
                                   fill_cell (fst pc) (snd pc))
                                (combine prev row))).
  { unfold present in *. rewrite fill_row_nth by lia.
    unfold fill_cell. destruct (nth j row None); [discriminate | exact Hp]. }
  constructor; [exact Hnew|].
  apply IH; [rewrite fill_row_length; congruence | exact Hnew].
Qed.

Lemma last_in_Forall {A : Type} (P : A -> Prop) (l : list A) (d : A) :
  l <> [] -> Forall P l -> P (last l d).
Proof.
  intros Hne H. rewrite Forall_forall in H. apply H.
  destruct (exists_last Hne) as [l' [x ->]]. rewrite last_last.
  apply in_or_app. right. now left.
Qed.

Lemma ffill_rows_length (prev : list cell) (rows : list (list cell)) :
  length (ffill_rows prev rows) = length rows.
Proof.
  revert prev; induction rows as [|row rows IH]; intros prev;
    cbn [ffill_rows length]; [reflexivity | now rewrite IH].
Qed.

(** After a forward fill the last row holds a price in every column that
    holds one somewhere. *)
Lemma ffill_rows_last (n j : nat) (rows : list (list cell)) :
  Forall (fun row => length row = n) rows -> (j < n)%nat ->
  forall prev, length prev = n -> Exists (present j) rows ->
    present j (last (ffill_rows prev rows) []).
Proof.
  intros Hwf Hj. induction Hwf as [|row rows Hrow Hrows IH];
    intros prev Hprev Hex; [inversion Hex|].
  cbn [ffill_rows]. cbv zeta.
  set (row' := map (fun pc : cell * cell => fill_cell (fst pc) (snd pc))
                   (combine prev row)).
  assert (Hlen : length row' = n)
    by (unfold row'; rewrite fill_row_length; congruence).
  destruct rows as [|row2 rows].
  - cbn [ffill_rows last]. apply Exists_cons in Hex.
    destruct Hex as [Hhead | Htail]; [|inversion Htail].
    unfold present in *. unfold row'. rewrite fill_row_nth by lia.
    unfold fill_cell. destruct (nth j row None); [discriminate | contradiction].
  - assert (Hne : ffill_rows row' (row2 :: rows) <> []).
    { intros E. apply (f_equal (@length _)) in E.
      rewrite ffill_rows_length in E. discriminate. }
    replace (last (row' :: ffill_rows row' (row2 :: rows)) [])
      with (last (ffill_rows row' (row2 :: rows)) []).
    2:{ destruct (ffill_rows row' (row2 :: rows)); [contradiction|reflexivity]. }
    apply Exists_cons in Hex. destruct Hex as [Hhead | Htail].
    + apply last_in_Forall; [exact Hne|].
      apply (ffill_rows_from_prev n j); try assumption.
      unfold present in *. unfold row'. rewrite fill_row_nth by lia.
      unfold fill_cell. destruct (nth j row None); [discriminate|contradiction].
    + now apply IH.
Qed.

(** X18: after the two fills of the preprocessing, a column that held at
    least one price has no missing price left. *)
Theorem fills_complete_columns (df : DataFrame) (j : nat) :
  DataFrame_wf df -> (j < length (columns df))%nat ->
  Exists (present j) (values df) ->
  Forall (present j) (values (bfill (ffill df))).
Proof.
  intros [_ Hwf] Hj Hex.
  unfold bfill, ffill. cbn [values columns index index_is_datetime].
  set (n := length (columns df)) in *.
  destruct (ffill_rows_keeps n (values df) Hwf (repeat None n)
              (repeat_length _ _)) as [_ HY].
  pose proof (ffill_rows_last n j (values df) Hwf Hj (repeat None n)
                (repeat_length _ _) Hex) as Hlast.
  set (Y := ffill_rows (repeat None n) (values df)) in *.
  apply Forall_rev.
  assert (Hne : Y <> []).
  { intros E. unfold present in Hlast. rewrite E in Hlast. cbn in Hlast.
    destruct j; contradiction. }
  destruct (exists_last Hne) as [Y' [h HYeq]].
  rewrite HYeq in Hlast. rewrite last_last in Hlast.
  rewrite HYeq, rev_app_distr. cbn [rev app ffill_rows]. cbv zeta.
  assert (Hh : length h = n).
  { rewrite HYeq in HY. apply Forall_app in HY. destruct HY as [_ HY].
    now inversion HY. }
  assert (Hnew : present j (map (fun pc : cell * cell =>
                                   fill_cell (fst pc) (snd pc))
                                (combine (repeat None n) h))).
  { unfold present in *. rewrite fill_row_nth
      by (rewrite ?repeat_length; lia).
    unfold fill_cell. destruct (nth j h None); [discriminate|contradiction]. }
  constructor; [exact Hnew|].
  apply (ffill_rows_from_prev n j); try assumption.
  - apply Forall_rev. rewrite HYeq in HY. apply Forall_app in HY. tauto.
  - rewrite fill_row_length; rewrite ?repeat_length; congruence.
Qed.

Lemma fills_complete_columns_witness :
  Forall (present 0)
    (values (bfill (ffill (mk_DataFrame true [1%Z; 2%Z; 3%Z] ["a"%string]
                             [[None]; [Some 1]; [None]])))).
Proof.
  apply (fills_complete_columns
           (mk_DataFrame true [1%Z; 2%Z; 3%Z] ["a"%string]
                         [[None]; [Some 1]; [None]]) 0).
  - split; [reflexivity | repeat constructor].
  - simpl. lia.
  - right. left. discriminate.
Defined.

(** ** mean_cvar: division by zero, nested targets, smallest slacks *)




(** X20: the feasible sets of the sweep are nested: values of the
    variables that satisfy the constraints of [mean_cvar] at one target
    satisfy them at every larger target. *)
Theorem mean_cvar_feasible_monotone (mu : list Q) (R : ndarray Q)
    (wb : WeightBounds) (investment_type : InvestmentType) (beta : Q)
    (p : Problem) (target target' : Q) (v : assignment) :
  mean_cvar_problem mu R wb investment_type beta = inr p ->
  target <= target' ->
  feasible p target v = true -> feasible p target' v = true.
Proof.
  unfold mean_cvar_problem. destruct (shape R) as [n T].
  destruct (Qeq_bool (inject_Z (Z.of_nat T) * (1 - beta)) 0); [discriminate|].
  destruct (get_lower_and_upper_bounds wb n) as [lower upper].
  intros Hp Hle. injection Hp as <-. unfold feasible.
  destruct (get_investment_target investment_type);
    cbn [problem_constraints app forallb]; rewrite !andb_true_iff;
    intros [H1 H2]; (split; [|exact H2]);
    apply Qleb_iff; apply Qleb_iff in H1; lra.
Qed.

Lemma mean_cvar_feasible_monotone_witness :
  exists p,
    mean_cvar_problem [1; 2] (mk_ndarray (2%nat, 1%nat) [[1]; [1]])
                      (BoundsPair (Some 0) None) FULLY_INVESTED (1 # 2)
    = inr p /\
    feasible p 1 (mk_assignment [1; 0] 0 [0]) = true.
Proof.
  eexists. split; [reflexivity|].
  eapply (mean_cvar_feasible_monotone [1; 2]
            (mk_ndarray (2%nat, 1%nat) [[1]; [1]])
            (BoundsPair (Some 0) None) FULLY_INVESTED (1 # 2) _ 0 1);
    [reflexivity | lra | reflexivity].
Defined.

Lemma Qsum_le (a b : list Q) :
  Forall2 Qle a b -> Qsum a <= Qsum b.
Proof.
  induction 1 as [|x y a b Hxy _ IH]; simpl; lra.
Qed.

Lemma Forall2_le_by_index (a b : list Q) :
  length a = length b ->
  (forall j, (j < length a)%nat -> nth j a 0 <= nth j b 0) ->
  Forall2 Qle a b.
Proof.
  revert b; induction a as [|x a IH]; intros [|y b] Hlen H; simpl in *;
    try discriminate; constructor.
  - apply (H 0%nat). lia.
  - apply IH; [now injection Hlen|]. intros j Hj. apply (H (S j)). lia.
Qed.

Lemma cvar_coefficient_pos (T : nat) (beta : Q) :
  (1 <= T)%nat -> beta < 1 ->
  0 < 1 / (inject_Z (Z.of_nat T) * (1 - beta)).
Proof.
  intros HT Hbeta.
  assert (0 < inject_Z (Z.of_nat T)).
  { change 0 with (inject_Z 0). rewrite <- Zlt_Qlt. lia. }
  assert (0 < inject_Z (Z.of_nat T) * (1 - beta))
    by (apply Qmult_lt_0_compat; lra).
  unfold Qdiv. rewrite Qmult_1_l. now apply Qinv_lt_0_compat.
Qed.

(** X21: the slacks of [mean_cvar] can always be taken as small as the
    constraints allow.  For [T >= 1] observations and [beta < 1], when
    values of [(w, alpha, u)] satisfy the constraints at a target, so do
    [(w, alpha, u')] with [u'_t = max(0, -(r_t.w + alpha))]; no slack is
    smaller, and the bound [alpha + sum(u') / (T (1 - beta))], which
    depends on [w] and [alpha] only, is within the target. *)
Theorem mean_cvar_smallest_slacks (mu : list Q) (R : ndarray Q)
    (wb : WeightBounds) (investment_type : InvestmentType) (beta : Q)
    (n T : nat) (p : Problem) (target : Q) (v : assignment) :
  shape R = (n, T) -> (1 <= T)%nat -> beta < 1 ->
  mean_cvar_problem mu R wb investment_type beta = inr p ->
  length (u_value v) = T ->
  feasible p target v = true ->
  let u' := shortfalls R (w_value v) (alpha_value v) in
  feasible p target (mk_assignment (w_value v) (alpha_value v) u') = true /\
  Forall2 Qle u' (u_value v) /\
  alpha_value v + 1 / (inject_Z (Z.of_nat T) * (1 - beta)) * Qsum u'
  <= target.
Proof.
  intros Hshape HT Hbeta Hp Hu Hfeas u'.
  pose proof (cvar_coefficient_pos T beta HT Hbeta) as Hcoef.
  assert (Hu' : length u' = T).
  { unfold u', shortfalls. now rewrite Hshape, length_map, length_seq. }
  assert (Hnth' : forall t, (t < T)%nat ->
            nth t u' 0 = shortfall R (w_value v) (alpha_value v) t).
  { intros t Ht. unfold u', shortfalls. rewrite Hshape. cbn [snd].
    now rewrite nth_seq_map. }
  unfold mean_cvar_problem in Hp. rewrite Hshape in Hp.
  destruct (Qeq_bool (inject_Z (Z.of_nat T) * (1 - beta)) 0); [discriminate|].
  destruct (get_lower_and_upper_bounds wb n) as [lower upper].
  injection Hp as <-. unfold feasible in *.
  assert (Hlen : forall u, length u = T ->
            length (vadd (vadd_scalar (matvec (transpose 0 R) (w_value v))
                                      (alpha_value v)) u) = T).
  { intros u Hlu.
    rewrite length_vadd; unfold vadd_scalar, matvec, transpose;
      rewrite Hshape; cbn [data snd fst];
      rewrite !length_map, length_seq; [reflexivity | now rewrite Hlu]. }
  assert (Hcore :
    Qleb (alpha_value v
          + 1 / (inject_Z (Z.of_nat T) * (1 - beta)) * Qsum (u_value v))
         target = true ->
    all_nonneg (vadd (vadd_scalar (matvec (transpose 0 R) (w_value v))
                                  (alpha_value v)) (u_value v)) = true ->
    all_nonneg (u_value v) = true ->
    Forall2 Qle u' (u_value v) /\
    Qleb (alpha_value v + 1 / (inject_Z (Z.of_nat T) * (1 - beta)) * Qsum u')
         target = true /\
    all_nonneg (vadd (vadd_scalar (matvec (transpose 0 R) (w_value v))
                                  (alpha_value v)) u') = true /\
    all_nonneg u' = true).
  { intros H1 H2 H3. apply Qleb_iff in H1.
    rewrite all_nonneg_by_index in H2, H3. rewrite (Hlen _ Hu) in H2.
    rewrite Hu in H3.
    assert (Hle : Forall2 Qle u' (u_value v)).
    { apply Forall2_le_by_index; [congruence|].
      intros t Ht. rewrite Hu' in Ht. rewrite (Hnth' t Ht).
      unfold shortfall. apply slack_linearization. split; [now apply H3|].
      rewrite <- (slack_expression_nth R n T v t Hshape Hu Ht).
      now apply H2. }
    split; [exact Hle|]. split; [|split].
    - apply Qleb_iff. apply Qsum_le in Hle.
      assert (1 / (inject_Z (Z.of_nat T) * (1 - beta)) * Qsum u'
              <= 1 / (inject_Z (Z.of_nat T) * (1 - beta)) * Qsum (u_value v)).
      { apply Qmult_le_l; assumption. }
      lra.
    - apply all_nonneg_by_index. rewrite (Hlen _ Hu'). intros t Ht.
      pose proof (slack_expression_nth R n T
                    (mk_assignment (w_value v) (alpha_value v) u') t
                    Hshape Hu' Ht) as E.
      cbn [w_value alpha_value u_value] in E. rewrite E, (Hnth' t Ht).
      unfold shortfall.
      apply (proj1 (slack_linearization _ _ _)). apply Qle_refl.
    - apply all_nonneg_by_index. rewrite Hu'. intros t Ht.
      rewrite (Hnth' t Ht). unfold shortfall. apply Q.le_max_l. }
  destruct (get_investment_target investment_type);
    cbn [problem_constraints app forallb w_value alpha_value u_value] in *;
    rewrite !andb_true_iff in Hfeas;
    destruct Hfeas as [H1 [H2 [H3 Hrest]]];
    destruct (Hcore H1 H2 H3) as [Hle [G1 [G2 G3]]];
    (split; [rewrite !andb_true_iff; repeat split; tauto|]);
    (split; [exact Hle | now apply Qleb_iff]).
Qed.

Lemma mean_cvar_smallest_slacks_witness :
  exists p,
    mean_cvar_problem [1; 2] (mk_ndarray (2%nat, 1%nat) [[1]; [1]])
                      (BoundsPair (Some 0) None) FULLY_INVESTED (1 # 2)
    = inr p /\
    feasible p 4 (mk_assignment [1; 0] 0
                    (shortfalls (mk_ndarray (2%nat, 1%nat) [[1]; [1]])
                                [1; 0] 0)) = true.
Proof.
  eexists. split; [reflexivity|].
  apply (mean_cvar_smallest_slacks [1; 2]
           (mk_ndarray (2%nat, 1%nat) [[1]; [1]])
           (BoundsPair (Some 0) None) FULLY_INVESTED (1 # 2) 2 1 _ 4
           (mk_assignment [1; 0] 0 [2]));
    [reflexivity | lia | reflexivity | reflexivity | reflexivity
    | reflexivity].
Defined.

(** ** rand_weights: a point of the simplex *)

Lemma Qsum_nonneg (l : list Q) : Forall (fun x => 0 <= x) l -> 0 <= Qsum l.
Proof. induction 1 as [|x l Hx _ IH]; simpl; lra. Qed.

Lemma Qsum_ge_nth (l : list Q) (i : nat) :
  Forall (fun x => 0 <= x) l -> (i < length l)%nat -> nth i l 0 <= Qsum l.
Proof.
  intros H; revert i; induction H as [|x l Hx Hl IH]; intros i Hi;
    simpl in Hi; [lia|].
  pose proof (Qsum_nonneg l Hl). destruct i as [|i]; simpl; [lra|].
  specialize (IH i ltac:(lia)). lra.
Qed.

(** Fewer than [n] indices leave one of the first [n] out. *)
Lemma exists_not_drawn (n : nat) (idx : list nat) :
  (length idx < n)%nat -> exists i, (i < n)%nat /\ ~ In i idx.
Proof.
  intros Hlen.
  destruct (Exists_dec (fun i => ~ In i idx) (seq 0 n)) as [Hex|Hall].
  - intros i. destruct (in_dec Nat.eq_dec i idx); [right | left]; tauto.
  - apply Exists_exists in Hex. destruct Hex as [i [Hin Hno]].
    apply in_seq in Hin. exists i. split; [lia | exact Hno].
  - exfalso. apply Forall_Exists_neg in Hall.
    assert (Hincl : incl (seq 0 n) idx).
    { intros i Hi. rewrite Forall_forall in Hall. specialize (Hall i Hi).
      destruct (in_dec Nat.eq_dec i idx); tauto. }
    pose proof (NoDup_incl_length (seq_NoDup n 0) Hincl) as H.
    rewrite length_seq in H. lia.
Qed.

Lemma nth_zero_at (idx : list nat) (k : list Q) (i : nat) :
  (i < length k)%nat ->
  nth i (zero_at idx k) 0
  = if existsb (Nat.eqb i) idx then 0 else nth i k 0.
Proof. intros Hi. unfold zero_at. now rewrite nth_seq_map. Qed.

Lemma existsb_eqb_In (i : nat) (idx : list nat) :
  existsb (Nat.eqb i) idx = true <-> In i idx.
Proof.
  rewrite existsb_exists. split.
  - intros [j [Hj E]]. apply Nat.eqb_eq in E. now subst.
  - intros H. exists i. split; [exact H | apply Nat.eqb_refl].
Qed.

(** X22: with fewer zeros than weights and a draw without an exact zero,
    [rand_weights] returns a point of the simplex: [n] finite weights
    between 0 and 1 that sum to 1; when [zeros] is positive the weights
    that are zero are exactly those at the drawn indices. *)
Theorem rand_weights_simplex (n : nat) (zeros : Z) (k : list Q)
    (zeros_idx : list nat) :
  (1 <= n)%nat -> (zeros < Z.of_nat n)%Z ->
  rand_draw n k -> Forall (fun x => 0 < x) k ->
  choice_draw n zeros zeros_idx ->
  exists ws,
    rand_weights n zeros k zeros_idx = map (@Some Q) ws /\
    length ws = n /\
    Qsum ws == 1 /\
    Forall (fun w => 0 <= w /\ w <= 1) ws /\
    ((0 < zeros)%Z ->
     forall i, (i < n)%nat -> (nth i ws 0 == 0 <-> In i zeros_idx)).
Proof.
  intros Hn Hzeros [Hk _] Hpos [Hlen [_ _]].
  set (k' := if (zeros >? 0)%Z then zero_at zeros_idx k else k).
  assert (Hk' : length k' = n).
  { unfold k'. destruct (zeros >? 0)%Z; [|exact Hk].
    unfold zero_at. now rewrite length_map, length_seq. }
  assert (Hkpos : forall i, (i < n)%nat -> 0 < nth i k 0).
  { intros i Hi. rewrite Forall_forall in Hpos. apply Hpos, nth_In. lia. }
  assert (Hnth : forall i, (i < n)%nat ->
            nth i k' 0 = if (zeros >? 0)%Z && existsb (Nat.eqb i) zeros_idx
                         then 0 else nth i k 0).
  { intros i Hi. unfold k'. destruct (zeros >? 0)%Z; [|reflexivity].
    cbn [andb]. apply nth_zero_at. lia. }
  assert (Hnonneg : Forall (fun x => 0 <= x) k').
  { apply Forall_forall. intros x Hx.
    destruct (In_nth k' x 0 Hx) as [i [Hi <-]]. rewrite Hk' in Hi.
    rewrite (Hnth i Hi).
    destruct ((zeros >? 0)%Z && existsb (Nat.eqb i) zeros_idx); [lra|].
    specialize (Hkpos i Hi). lra. }
  assert (Hfree : exists i, (i < n)%nat /\ 0 < nth i k' 0).
  { destruct (zeros >? 0)%Z eqn:Ez.
    - destruct (exists_not_drawn n zeros_idx) as [i [Hi Hno]]; [lia|].
      exists i. split; [exact Hi|]. rewrite (Hnth i Hi). cbn [andb].
      destruct (existsb (Nat.eqb i) zeros_idx) eqn:E;
        [apply existsb_eqb_In in E; contradiction | now apply Hkpos].
    - exists 0%nat. split; [lia|]. rewrite (Hnth 0%nat) by lia.
      cbn [andb]. apply Hkpos. lia. }
  assert (Hsum : 0 < Qsum k').
  { destruct Hfree as [i [Hi Hgt]].
    pose proof (Qsum_ge_nth k' i Hnonneg ltac:(lia)). lra. }
  assert (Hpy : ~ py_sum k' == 0) by (rewrite py_sum_Qsum; lra).
  exists (map (fun x => x / py_sum k') k').
  split; [|split; [|split; [|split]]].
  - unfold rand_weights. fold k'. rewrite map_map. apply map_ext.
    intros x. unfold cell_div.
    destruct (Qeq_bool (py_sum k') 0) eqn:E; [|reflexivity].
    apply Qeq_bool_iff in E. contradiction.
  - now rewrite length_map.
  - assert (H : forall l s, Qsum (map (fun x => x / s) l) == Qsum l / s).
    { induction l as [|x l IH]; intros s; simpl.
      - unfold Qdiv. ring.
      - rewrite IH. unfold Qdiv. ring. }
    rewrite H, <- py_sum_Qsum. now field.
  - apply Forall_forall. intros w Hw. apply in_map_iff in Hw.
    destruct Hw as [x [<- Hx]].
    destruct (In_nth k' x 0 Hx) as [i [Hi E]].
    pose proof (Qsum_ge_nth k' i Hnonneg Hi) as Hle. rewrite E in Hle.
    rewrite Forall_forall in Hnonneg. specialize (Hnonneg _ Hx).
    rewrite py_sum_Qsum. split.
    + apply Qle_shift_div_l; [exact Hsum | lra].
    + apply Qle_shift_div_r; [exact Hsum | lra].
  - intros Hz i Hi.
    rewrite (nth_map_in _ _ 0) by lia. rewrite (Hnth i Hi).
    assert (Ez : (zeros >? 0)%Z = true) by lia. rewrite Ez. cbn [andb].
    destruct (existsb (Nat.eqb i) zeros_idx) eqn:E.
    + apply existsb_eqb_In in E. split; [intros _; exact E|].
      intros _. unfold Qdiv. ring.
    + assert (Hno : ~ In i zeros_idx)
        by (intros H; apply existsb_eqb_In in H; congruence).
      split; [|contradiction]. intros H0. exfalso.
      specialize (Hkpos i Hi).
      assert (nth i k 0 == 0).
      { rewrite <- (Qmult_div_r (nth i k 0) (py_sum k')) by exact Hpy.
        unfold Qdiv in *. rewrite H0. ring. }
      lra.
Qed.

Lemma rand_weights_simplex_witness :
  exists ws,
    rand_weights 2 1 [1 # 2; 1 # 4] [0%nat] = map (@Some Q) ws /\
    length ws = 2%nat /\ Qsum ws == 1.
Proof.
  destruct (rand_weights_simplex 2 1 [1 # 2; 1 # 4] [0%nat])
    as [ws [Hw [Hlen [Hsum _]]]].
  - lia.
  - simpl. lia.
  - split; [reflexivity|]. repeat constructor; simpl; lra.
  - repeat constructor.
  - split; [reflexivity|]. split; repeat constructor; simpl; auto. 
  - exists ws. repeat split; assumption.
Defined.

(** ** Assets: a preprocessing that drops nothing; a single date *)

Lemma fills_values_keep (n : nat) (X : list (list cell)) :
  Forall (fun row => length row = n) X ->
  Forall2 (Forall2 keeps) X
    (rev (ffill_rows (repeat None n)
                     (rev (ffill_rows (repeat None n) X)))).
Proof.
  intros Hwf.
  destruct (ffill_rows_keeps n X Hwf (repeat None n) (repeat_length _ _))
    as [H1 H2].
  apply (Forall2_keeps_trans _ (ffill_rows (repeat None n) X)); [exact H1|].
  destruct (ffill_rows_keeps n _ (Forall_rev H2) (repeat None n)
              (repeat_length _ _)) as [H3 _].
  apply Forall2_rev_both in H3. now rewrite rev_involutive in H3.
Qed.

Lemma fills_values_complete (n j : nat) (X : list (list cell)) :
  Forall (fun row => length row = n) X -> (j < n)%nat ->
  Exists (present j) X ->
  Forall (present j)
    (rev (ffill_rows (repeat None n)
                     (rev (ffill_rows (repeat None n) X)))).
Proof.
  intros Hwf Hj Hex.
  destruct (ffill_rows_keeps n X Hwf (repeat None n) (repeat_length _ _))
    as [_ HY].
  pose proof (ffill_rows_last n j X Hwf Hj (repeat None n)
                (repeat_length _ _) Hex) as Hlast.
  set (Y := ffill_rows (repeat None n) X) in *.
  apply Forall_rev.
  assert (Hne : Y <> []).
  { intros E. unfold present in Hlast. rewrite E in Hlast. cbn in Hlast.
    destruct j; contradiction. }
  destruct (exists_last Hne) as [Y' [h HYeq]].
  rewrite HYeq in Hlast. rewrite last_last in Hlast.
  rewrite HYeq, rev_app_distr. cbn [rev app ffill_rows]. cbv zeta.
  assert (Hh : length h = n).
  { rewrite HYeq in HY. apply Forall_app in HY. destruct HY as [_ HY].
    now inversion HY. }
  assert (Hnew : present j (map (fun pc : cell * cell =>
                                   fill_cell (fst pc) (snd pc))
                                (combine (repeat None n) h))).
  { unfold present in *. rewrite fill_row_nth
      by (rewrite ?repeat_length; lia).
    unfold fill_cell. destruct (nth j h None); [discriminate|contradiction]. }
  constructor; [exact Hnew|].
  apply (ffill_rows_from_prev n j); try assumption.
  - apply Forall_rev. rewrite HYeq in HY. apply Forall_app in HY. tauto.
  - rewrite fill_row_length; rewrite ?repeat_length; congruence.
Qed.

(** Fewer missing cells in a column than rows: one row holds a price. *)
Lemma count_nan_lt_present (j : nat) (X : list (list cell)) :
  (count_nan (column None j X) < length X)%nat -> Exists (present j) X.
Proof.
  unfold count_nan, column. induction X as [|row X IH]; cbn [map filter length];
    [lia|].
  destruct (nth j row None) as [x|] eqn:E; cbn [isna].
  - intros _. left. unfold present. rewrite E. discriminate.
  - cbn [length]. intros H. right. apply IH. lia.
Qed.

Lemma below_threshold_lt (size count : nat) (threshold : Q) :
  (1 <= size)%nat -> threshold < 1 ->
  above_threshold size threshold count = false -> (count < size)%nat.
Proof.
  intros Hsize Hthr H. unfold above_threshold, Qgtb in H.
  apply Qltb_false_iff in H.
  assert (Hpos : 0 < inject_Z (Z.of_nat size)).
  { change 0 with (inject_Z 0). rewrite <- Zlt_Qlt. lia. }
  assert (Hlt : inject_Z (Z.of_nat size) * threshold
                < inject_Z (Z.of_nat size) * 1)
    by (apply Qmult_lt_l; assumption).
  assert (Hc : inject_Z (Z.of_nat count) < inject_Z (Z.of_nat size)) by lra.
  rewrite <- Zlt_Qlt in Hc. lia.
Qed.

Lemma keep_all (size : nat) (threshold : Q) (counts : list nat) :
  Forall (fun c => above_threshold size threshold c = false) counts ->
  Forall (fun b => b = true)
         (map (fun c => negb (above_threshold size threshold c)) counts).
Proof.
  intros H. apply Forall_forall. intros b Hb. apply in_map_iff in Hb.
  destruct Hb as [c [<- Hc]]. rewrite Forall_forall in H.
  now rewrite (H c Hc).
Qed.

(** X23: when no asset and no date has more missing prices than its
    threshold allows, [_preprocessing] (thresholds inside (0, 1), at least
    one date) returns a table with the same dates and assets, in which
    every price that was there is unchanged and no price is missing. *)
Theorem preprocessing_completes_table (a d : Q) (df : DataFrame) :
  0 < a -> a < 1 -> 0 < d -> d < 1 ->
  DataFrame_wf df -> (1 <= length (index df))%nat ->
  Forall (fun c => above_threshold (length (index df)) d c = false)
         (isna_sum_axis0 df) ->
  Forall (fun c => above_threshold (length (columns df)) a c = false)
         (isna_sum_axis1 df) ->
  exists df',
    _preprocessing (Some a) (Some d) df = inr df' /\
    index df' = index df /\ columns df' = columns df /\
    Forall2 (Forall2 keeps) (values df) (values df') /\
    forall j, (j < length (columns df))%nat ->
      Forall (present j) (values df').
Proof.
  intros Ha0 Ha1 Hd0 Hd1 [Hrows Hwf] Hn Hassets Hdates.
  unfold _preprocessing.
  assert (Ea : Qltb 0 a && Qltb a 1 = true)
    by (apply andb_true_iff; now rewrite !Qltb_iff).
  assert (Ed : Qltb 0 d && Qltb d 1 = true)
    by (apply andb_true_iff; now rewrite !Qltb_iff).
  rewrite Ea, Ed. cbn [negb]. eexists. split; [reflexivity|].
  unfold clean_prices, df_shape.
  assert (Hdrop1 : drop_columns
                     (map (fun c => negb (above_threshold
                                            (length (index df)) d c))
                          (isna_sum_axis0 df)) df = df).
  { unfold drop_columns.
    pose proof (keep_all _ _ _ Hassets) as Hall.
    assert (Hlen : length (map (fun c => negb (above_threshold
                                                 (length (index df)) d c))
                               (isna_sum_axis0 df)) = length (columns df)).
    { unfold isna_sum_axis0. now rewrite !length_map, length_seq. }
    rewrite (select_all _ (columns df) Hall Hlen).
    rewrite (map_ext_in _ (fun row => row)).
    - rewrite map_id. now destruct df.
    - intros row Hin. apply select_all; [exact Hall|].
      rewrite Hlen. rewrite Forall_forall in Hwf. symmetry. now apply Hwf. }
  rewrite Hdrop1.
  assert (Hdrop2 : drop_rows
                     (map (fun c => negb (above_threshold
                                            (length (columns df)) a c))
                          (isna_sum_axis1 df)) df = df).
  { unfold drop_rows.
    pose proof (keep_all _ _ _ Hdates) as Hall.
    assert (Hlen : length (map (fun c => negb (above_threshold
                                                 (length (columns df)) a c))
                               (isna_sum_axis1 df)) = length (values df)).
    { unfold isna_sum_axis1. now rewrite !length_map. }
    rewrite (select_all _ (index df) Hall) by congruence.
    rewrite (select_all _ (values df) Hall Hlen). now destruct df. }
  rewrite Hdrop2.
  split; [reflexivity|]. split; [reflexivity|].
  unfold bfill, ffill. cbn [values columns index index_is_datetime].
  split; [now apply fills_values_keep|].
  intros j Hj. apply fills_values_complete; try assumption.
  apply count_nan_lt_present. rewrite Hrows.
  apply (below_threshold_lt _ _ d Hn Hd1).
  rewrite Forall_forall in Hassets. apply Hassets.
  unfold isna_sum_axis0. apply in_map_iff. exists j.
  split; [reflexivity | apply in_seq; lia].
Qed.

Lemma preprocessing_completes_table_witness :
  exists df',
    _preprocessing (Some (1 # 2)) (Some (1 # 2))
      (mk_DataFrame true [1%Z; 2%Z; 3%Z] ["a"%string; "b"%string]
                    [[None; Some 5]; [Some 1; Some 6]; [Some 2; Some 7]])
    = inr df' /\
    Forall (present 0) (values df').
Proof.
  destruct (preprocessing_completes_table (1 # 2) (1 # 2)
              (mk_DataFrame true [1%Z; 2%Z; 3%Z] ["a"%string; "b"%string]
                 [[None; Some 5]; [Some 1; Some 6]; [Some 2; Some 7]]))
    as [df' [Hrun [_ [_ [_ Hfull]]]]];
    try reflexivity.
  - split; [reflexivity | repeat constructor].
  - simpl. lia.
  - repeat constructor.
  - repeat constructor.
  - exists df'. split; [exact Hrun|]. apply Hfull. simpl. lia.
Defined.

(** X24: a price table with a single date passes [_prices_check] (with
    at least one asset and a date index), but gives no return: the array
    [Assets.returns] has one row per asset and no column, and every entry
    of [Assets.mu] is NaN. *)
Theorem single_date_has_no_returns (date0 : date) (names : list string)
    (row : list cell) :
  names <> [] ->
  let prices := mk_DataFrame true [date0] names [row] in
  _prices_check prices = None /\
  shape (returns prices) = (length names, 0%nat) /\
  date_nb prices = 0%nat /\
  mu prices = repeat None (length names).
Proof.
  intros Hne prices. split; [|split; [|split]].
  - unfold _prices_check, df_empty. cbn.
    destruct names; [contradiction | reflexivity].
  - reflexivity.
  - reflexivity.
  - assert (Hdata : data (returns prices)
                    = map (fun _ : nat => []) (seq 0 (length names)))
      by reflexivity.
    unfold mu. rewrite Hdata, map_map, map_const, length_seq. reflexivity.
Qed.

Lemma single_date_has_no_returns_witness :
  mu (mk_DataFrame true [1%Z] ["a"%string; "b"%string] [[Some 1; Some 2]])
  = [None; None].
Proof.
  apply (single_date_has_no_returns 1%Z ["a"%string; "b"%string]
           [Some 1; Some 2]).
  discriminate.
Defined.

(** ** Assets.returns on every price table *)





